(** * detect-secrets: baseline comparison and argument injection

    A shallow embedding of [detect_secrets/audit/compare.py] and
    [detect_secrets/util/inject.py], with the properties of the
    two-pointer diff, of the review loop and of the injection mechanism. *)

From Stdlib Require Import ZArith String List Bool Lia Sorted.
From stdpp Require Import base gmap strings list.

Local Open Scope Z_scope.
Local Open Scope string_scope.

(** ** [detect_secrets/audit/compare.py] *)

Module Compare.

(** Modelled from the spec: the Secret Record
    ([core/potential_secret.py] is not among the sources), with the
    attributes the module reads or writes.  [line_number] is an integer;
    a record without a line number is one whose [line_number] is falsy,
    which line 99 tests with [not]: the model writes it [0].
    [secret_value] is only filled in during review. *)
Record PotentialSecret := {
  filename : string;
  line_number : Z;
  secret_hash : string;
  secret_value : option string
}.

(** Python truthiness of an [int]: [not n] holds exactly for [0]. *)
Definition truthy (n : Z) : bool := negb (n =? 0)%Z.

(** What the generator yields: [(filename, left_secret, right_secret)]. *)
Definition ChangeEvent : Type :=
  string * option PotentialSecret * option PotentialSecret.

(** The exceptions that travel through the loop body.  [LeftSecret] and
    [RightSecret] are the two local classes used as control flow;
    [UnboundLocalError] is what Python raises when a local is read before
    its first assignment. *)
Inductive exn :=
| LeftSecret
| RightSecret
| NoLineNumberError
| UnboundLocalError.

(** How a run of the generator ends. *)
Inductive ending :=
| StopIteration            (* the [while] condition became false *)
| Raised (e : exn)         (* an exception left the generator *)
| Unfinished.              (* the model's fuel ran out *)

Record generated := {
  yielded : list ChangeEvent;
  ended : ending
}.

Definition emit (ev : ChangeEvent) (g : generated) : generated :=
  {| yielded := ev :: yielded g; ended := ended g |}.

(** Lines 97-102 and 104-109: index the list and check the line number.
    [inr None] is the caught [IndexError]. *)
Definition fetch (secrets : list PotentialSecret) (index : nat)
  : exn + option PotentialSecret :=
  match secrets !! index with
  | None => inr None
  | Some secret =>
      if truthy (line_number secret) then inr (Some secret)
      else inl NoLineNumberError
  end.

(** Lines 140-145 and 147-152:
    [while old_hash == secrets[index].secret_hash: index += 1], ended by
    the first different hash or by the caught [IndexError].  The loop runs
    at most [length secrets] times from any index, which is the fuel
    [skip_same_hash] gives it. *)
Fixpoint skip_while (fuel : nat) (old_hash : string)
    (secrets : list PotentialSecret) (index : nat) : nat :=
  match fuel with
  | O => index
  | S fuel' =>
      match secrets !! index with
      | None => index
      | Some secret =>
          if String.eqb old_hash (secret_hash secret)
          then skip_while fuel' old_hash secrets (S index)
          else index
      end
  end.

Definition skip_same_hash (old_hash : string)
    (secrets : list PotentialSecret) (index : nat) : nat :=
  skip_while (length secrets) old_hash secrets index.

(** Lines 117-135: the three-level comparison of two fetched secrets;
    [None] when no exception is raised. *)
Definition compare_secrets (left_secret right_secret : PotentialSecret)
  : option exn :=
  if String.ltb (filename left_secret) (filename right_secret)
  then Some LeftSecret
  else if String.ltb (filename right_secret) (filename left_secret)
  then Some RightSecret
  else if (line_number left_secret <? line_number right_secret)%Z
  then Some LeftSecret
  else if (line_number right_secret <? line_number left_secret)%Z
  then Some RightSecret
  else if String.ltb (secret_hash left_secret) (secret_hash right_secret)
  then Some LeftSecret
  else if String.ltb (secret_hash right_secret) (secret_hash left_secret)
  then Some RightSecret
  else None.

(** The state of the [while] loop: the two indices and the two locals
    [left_secret] and [right_secret], which keep their value from one
    iteration to the next ([None] while still unbound). *)
Record locals := {
  left_index : nat;
  right_index : nat;
  left_secret : option PotentialSecret;
  right_secret : option PotentialSecret
}.

Inductive step :=
| Propagate (e : exn)
| Yield (ev : ChangeEvent) (st : locals)
| Next (st : locals).

(** Lines 154-156 and 158-160: the two handlers. *)
Definition handle_left (st : locals) : step :=
  match left_secret st with
  | None => Propagate UnboundLocalError
  | Some l =>
      Yield (filename l, Some l, None)
            {| left_index := S (left_index st);
               right_index := right_index st;
               left_secret := left_secret st;
               right_secret := right_secret st |}
  end.

Definition handle_right (st : locals) : step :=
  match right_secret st with
  | None => Propagate UnboundLocalError
  | Some r =>
      Yield (filename r, None, Some r)
            {| left_index := left_index st;
               right_index := S (right_index st);
               left_secret := left_secret st;
               right_secret := right_secret st |}
  end.

Definition handle (e : exn) (st : locals) : step :=
  match e with
  | LeftSecret => handle_left st
  | RightSecret => handle_right st
  | _ => Propagate e
  end.

(** Lines 92-160: one iteration of the [while] loop.  [exception] is the
    local of line 96, set by the two [except IndexError] clauses. *)
Definition iteration (left_secrets right_secrets : list PotentialSecret)
    (st : locals) : step :=
  match fetch left_secrets (left_index st) with
  | inl e => Propagate e
  | inr fetched_left =>
      let '(left_now, exception) :=
        match fetched_left with
        | Some l => (Some l, None)
        | None => (left_secret st, Some RightSecret)
        end in
      match fetch right_secrets (right_index st) with
      | inl e => Propagate e
      | inr fetched_right =>
          let '(right_now, exception) :=
            match fetched_right with
            | Some r => (Some r, exception)
            | None => (right_secret st, Some LeftSecret)
            end in
          let st' := {| left_index := left_index st;
                        right_index := right_index st;
                        left_secret := left_now;
                        right_secret := right_now |} in
          match exception with
          | Some e => handle e st'
          | None =>
              match left_now, right_now with
              | Some l, Some r =>
                  match compare_secrets l r with
                  | Some e => handle e st'
                  | None =>
                      Next {| left_index :=
                                skip_same_hash (secret_hash l) left_secrets
                                               (left_index st);
                              right_index :=
                                skip_same_hash (secret_hash r) right_secrets
                                               (right_index st);
                              left_secret := left_now;
                              right_secret := right_now |}
                  end
              | _, _ => Propagate UnboundLocalError
              end
          end
      end
  end.

(** Line 91 and the loop around the body. *)
Fixpoint run (fuel : nat) (left_secrets right_secrets : list PotentialSecret)
    (st : locals) : generated :=
  if (left_index st <? length left_secrets)%nat
     || (right_index st <? length right_secrets)%nat
  then
    match fuel with
    | O => {| yielded := []; ended := Unfinished |}
    | S fuel' =>
        match iteration left_secrets right_secrets st with
        | Propagate e => {| yielded := []; ended := Raised e |}
        | Yield ev st' => emit ev (run fuel' left_secrets right_secrets st')
        | Next st' => run fuel' left_secrets right_secrets st'
        end
    end
  else {| yielded := []; ended := StopIteration |}.

Definition initial : locals :=
  {| left_index := 0; right_index := 0;
     left_secret := None; right_secret := None |}.

(** Lines 70-160.  A [SecretsCollection] iterates as [(filename, secret)]
    pairs; lines 86-87 keep the secrets.  Every iteration moves an index
    forward, so the sum of the two lengths is fuel enough
    (see [run_finishes]). *)
Definition _compare_baselines
    (old_baseline new_baseline : list (string * PotentialSecret)) : generated :=
  let left_secrets := map snd old_baseline in
  let right_secrets := map snd new_baseline in
  run (length left_secrets + length right_secrets)
      left_secrets right_secrets initial.

(** A baseline entry as the collection yields it. *)
Definition entry (f : string) (n : Z) (h : string) : string * PotentialSecret :=
  (f, {| filename := f; line_number := n; secret_hash := h;
         secret_value := None |}).

Definition secret_of (f : string) (n : Z) (h : string) : PotentialSecret :=
  snd (entry f n h).

(** *** The sort key

    A baseline is sorted by [(filename, line_number, secret_hash)], compared
    as Python compares tuples. *)

Definition lex (c d : comparison) : comparison :=
  match c with Eq => d | _ => c end.

Definition key_compare (a b : PotentialSecret) : comparison :=
  lex (String.compare (filename a) (filename b))
      (lex (Z.compare (line_number a) (line_number b))
           (String.compare (secret_hash a) (secret_hash b))).

Definition key_le (a b : PotentialSecret) : Prop := key_compare a b <> Gt.

Definition same_key (a b : PotentialSecret) : Prop :=
  filename a = filename b /\ line_number a = line_number b
  /\ secret_hash a = secret_hash b.

(** The ordering precondition on one side. *)
Definition ordered (secrets : list PotentialSecret) : Prop :=
  Sorted key_le secrets.

(** Line 179: [secret = left_secret if left_secret else right_secret]. *)
Definition event_secret (ev : ChangeEvent) : option PotentialSecret :=
  match ev with
  | (_, Some l, _) => Some l
  | (_, None, r) => r
  end.

Definition event_le (e1 e2 : ChangeEvent) : Prop :=
  match event_secret e1, event_secret e2 with
  | Some a, Some b => key_le a b
  | _, _ => False
  end.

(** An event with exactly one of its two slots filled, for the file of the
    record it carries. *)
Definition one_sided (ev : ChangeEvent) : Prop :=
  match ev with
  | (f, Some l, None) => f = filename l
  | (f, None, Some r) => f = filename r
  | _ => False
  end.

(** Exchanging the two sides. *)
Definition mirror_event (ev : ChangeEvent) : ChangeEvent :=
  match ev with (f, l, r) => (f, r, l) end.

Definition mirror (g : generated) : generated :=
  {| yielded := map mirror_event (yielded g); ended := ended g |}.

Definition mirror_locals (st : locals) : locals :=
  {| left_index := right_index st; right_index := left_index st;
     left_secret := right_secret st; right_secret := left_secret st |}.

Definition mirror_step (s : step) : step :=
  match s with
  | Propagate e => Propagate e
  | Yield ev st => Yield (mirror_event ev) (mirror_locals st)
  | Next st => Next (mirror_locals st)
  end.

(** What is left to visit: the variant of the [while] loop. *)
Definition remaining (left_secrets right_secrets : list PotentialSecret)
    (st : locals) : nat :=
  (length left_secrets - left_index st) + (length right_secrets - right_index st).

(** Line 91. *)
Definition guard (left_secrets right_secrets : list PotentialSecret)
    (st : locals) : bool :=
  (left_index st <? length left_secrets)%nat
  || (right_index st <? length right_secrets)%nat.

(** What an iteration does when the condition of line 91 holds, read off
    the two records under the cursors. *)
Inductive iterates (left_secrets right_secrets : list PotentialSecret)
    (st : locals) : step -> Prop :=
| iterates_no_line_left l :
    left_secrets !! left_index st = Some l ->
    line_number l = 0%Z ->
    iterates left_secrets right_secrets st (Propagate NoLineNumberError)
| iterates_no_line_right r :
    right_secrets !! right_index st = Some r ->
    line_number r = 0%Z ->
    iterates left_secrets right_secrets st (Propagate NoLineNumberError)
| iterates_left l st' :
    left_secrets !! left_index st = Some l ->
    line_number l <> 0%Z ->
    match right_secrets !! right_index st with
    | None => True
    | Some r => line_number r <> 0%Z /\ key_compare l r = Lt
    end ->
    left_index st' = S (left_index st) ->
    right_index st' = right_index st ->
    iterates left_secrets right_secrets st (Yield (filename l, Some l, None) st')
| iterates_right r st' :
    right_secrets !! right_index st = Some r ->
    line_number r <> 0%Z ->
    match left_secrets !! left_index st with
    | None => True
    | Some l => line_number l <> 0%Z /\ key_compare l r = Gt
    end ->
    left_index st' = left_index st ->
    right_index st' = S (right_index st) ->
    iterates left_secrets right_secrets st (Yield (filename r, None, Some r) st')
| iterates_match l r st' :
    left_secrets !! left_index st = Some l ->
    right_secrets !! right_index st = Some r ->
    line_number l <> 0%Z ->
    line_number r <> 0%Z ->
    key_compare l r = Eq ->
    left_index st' =
      skip_same_hash (secret_hash l) left_secrets (left_index st) ->
    right_index st' =
      skip_same_hash (secret_hash r) right_secrets (right_index st) ->
    iterates left_secrets right_secrets st (Next st').

(** [k] is below every record the cursors have still to visit. *)
Definition below (left_secrets right_secrets : list PotentialSecret)
    (k : PotentialSecret) (st : locals) : Prop :=
  (forall j s, (left_index st <= j)%nat -> left_secrets !! j = Some s ->
               key_le k s)
  /\ (forall j s, (right_index st <= j)%nat -> right_secrets !! j = Some s ->
                  key_le k s).

(** The record of [ev] is at or after [k]. *)
Definition above (k : PotentialSecret) (ev : ChangeEvent) : Prop :=
  exists s, event_secret ev = Some s /\ key_le k s.

(** *** Coverage

    The records of one side with the key of [k], in their order. *)
Definition key_eqb (k s : PotentialSecret) : bool :=
  match key_compare k s with Eq => true | _ => false end.

Definition with_key (k : PotentialSecret) (secrets : list PotentialSecret)
  : list PotentialSecret :=
  List.filter (key_eqb k) secrets.

(** The records the events carry in their left and in their right slot. *)
Definition lefts (events : list ChangeEvent) : list PotentialSecret :=
  omap (fun ev => ev.1.2) events.

Definition rights (events : list ChangeEvent) : list PotentialSecret :=
  omap (fun ev => ev.2) events.

(** Total coverage for the key of [k]: when only one side has records with
    that key, the events carry exactly those records, each once, in their
    order, on that side and none on the other; when both sides have it, no
    event has that key. *)
Definition covered (k : PotentialSecret)
    (left_secrets right_secrets : list PotentialSecret)
    (events : list ChangeEvent) : Prop :=
  (with_key k right_secrets = [] ->
   with_key k (lefts events) = with_key k left_secrets
   /\ with_key k (rights events) = [])
  /\ (with_key k left_secrets = [] ->
      with_key k (rights events) = with_key k right_secrets
      /\ with_key k (lefts events) = [])
  /\ (with_key k left_secrets <> [] -> with_key k right_secrets <> [] ->
      with_key k (lefts events) = [] /\ with_key k (rights events) = []).

(** Neighbours with the same hash have the same key: the baselines on
    which comparing hashes, as lines 142 and 149 do, is comparing keys. *)
Definition hash_follows_key (secrets : list PotentialSecret) : Prop :=
  forall i s t,
    secrets !! i = Some s -> secrets !! S i = Some t ->
    secret_hash s = secret_hash t -> same_key s t.

(** The number of leading records with hash [h]. *)
Fixpoint prefix_len (h : string) (secrets : list PotentialSecret) : nat :=
  match secrets with
  | [] => O
  | s :: rest =>
      if String.eqb h (secret_hash s) then S (prefix_len h rest) else O
  end.

Definition lacks_line (s : PotentialSecret) : Prop := line_number s = 0%Z.

(** *** The two kinds of event, and the events a review can resolve *)

(** Line 155 and line 159. *)
Definition removal (s : PotentialSecret) : ChangeEvent :=
  (filename s, Some s, None).

Definition addition (s : PotentialSecret) : ChangeEvent :=
  (filename s, None, Some s).

(** The record of the event has a line number. *)
Definition has_line (ev : ChangeEvent) : Prop :=
  match event_secret ev with
  | Some s => line_number s <> 0%Z
  | None => False
  end.

End Compare.

(** ** The review loop of [detect_secrets/audit/compare.py] *)

Module Session.
Import Compare.

(** Modelled from the spec: [io.InputOptions], the decision of one review
    step.  [SKIP] stands for the default, advancing decision; the loop only
    tells [QUIT] and [BACK] from everything else. *)
Inductive InputOptions := YES | NO | SKIP | BACK | QUIT.

(** Modelled from the spec: the colours of [util/color.py] that the
    status header uses. *)
Inductive AnsiColor := BOLD | RED | LIGHT_GREEN.

(** Modelled from the spec: what the secret-value resolver raises, the
    "not found on specified line" condition that line 209 catches, or
    anything else, which the loop lets through. *)
Inductive failure (error : Type) :=
| SecretNotFoundOnSpecifiedLineError (e : error)
| OtherError (name : string).
Arguments SecretNotFoundOnSpecifiedLineError {error} e.
Arguments OtherError {error} name.

(** Modelled from the spec: the review context, [custom_types.SecretContext]. *)
Record SecretContext (snippet error : Type) := {
  current_index : nat;
  num_total_secrets : nat;
  secret : PotentialSecret;
  header : option string;
  code_snippet : option snippet;
  context_error : option error
}.
Arguments current_index {snippet error} _.
Arguments num_total_secrets {snippet error} _.
Arguments secret {snippet error} _.
Arguments header {snippet error} _.
Arguments code_snippet {snippet error} _.
Arguments context_error {snippet error} _.

(** Modelled from the spec: the calls made on the presentation
    collaborator [audit/io.py], recorded in the order they are made. *)
Inductive action (snippet error : Type) :=
| clear_screen
| print_context (context : SecretContext snippet error)
| print_secret_not_found (context : SecretContext snippet error)
| get_user_decision (can_step_back prompt_secret_decision : bool)
| print_message (message : string)
| print_error (message : string).
Arguments clear_screen {snippet error}.
Arguments print_context {snippet error} context.
Arguments print_secret_not_found {snippet error} context.
Arguments get_user_decision {snippet error} can_step_back prompt_secret_decision.
Arguments print_message {snippet error} message.
Arguments print_error {snippet error} message.

(** Modelled from the spec: the cursor of [BidirectionalIterator]
    ([audit/iterator.py] is not among the sources).  The session is in
    [Reviewing index] while [index] is inside [collection] and done past
    its end; stepping back is legal when [index > 0] and moves to
    [index - 1], any other decision than quitting moves to [index + 1]. *)
Record BidirectionalIterator := {
  collection : list ChangeEvent;
  index : nat
}.

Definition can_step_back (it : BidirectionalIterator) : bool :=
  (0 <? index it)%nat.

Definition step_back (it : BidirectionalIterator) : BidirectionalIterator :=
  {| collection := collection it; index := (index it - 1)%nat |}.

Definition advance (it : BidirectionalIterator) : BidirectionalIterator :=
  {| collection := collection it; index := S (index it) |}.

(** How the session ends. *)
Inductive session_end :=
| Done                       (* the cursor went past the end *)
| Quit                       (* the reviewer quit *)
| Aborted (name : string)    (* an exception left the loop *)
| Waiting.                   (* the decisions given so far are used up *)

Section review.

Context {config snippet error : Type}.

(** The collaborators of section 6 of the spec. *)
Variable get_raw_secret_from_file :
  config -> PotentialSecret -> failure error + string.
Variable get_code_snippet : string -> Z -> snippet.
Variable colorize : string -> AnsiColor -> string.

Abbreviation trace := (list (action snippet error)).

(** Line 184: the assignment writes into the record the event holds. *)
Definition with_value (s : PotentialSecret) (v : string) : PotentialSecret :=
  {| filename := filename s; line_number := line_number s;
     secret_hash := secret_hash s; secret_value := Some v |}.

Definition store_secret (ev : ChangeEvent) (s : PotentialSecret) : ChangeEvent :=
  match ev with
  | (f, Some _, r) => (f, Some s, r)
  | (f, None, Some _) => (f, None, Some s)
  | (f, None, None) => ev
  end.

(** Lines 190-197. *)
Definition status_header (right_secret : option PotentialSecret) : string :=
  colorize "Status:" BOLD ++ "      " ++
  (">> " ++
   match right_secret with
   | None => colorize "REMOVED" RED
   | Some _ => colorize "ADDED" LIGHT_GREEN
   end ++ " <<").

(** What one pass through lines 177-222 leaves behind. *)
Inductive reviewed :=
| Prompted (shown : trace) (it : BidirectionalIterator)
| Failed (shown : trace) (name : string).

(** Lines 177-222: the body of the [for] loop up to the decision. *)
Definition review (old_config new_config : config)
    (it : BidirectionalIterator) (ev : ChangeEvent) : reviewed :=
  let '(_, left_secret, right_secret) := ev in
  let chosen := match left_secret with Some _ => left_secret | None => right_secret end in
  let config := match left_secret with Some _ => old_config | None => new_config end in
  match chosen with
  | None => Failed [clear_screen] "AttributeError"
  | Some secret =>
      match get_raw_secret_from_file config secret with
      | inr value =>
          let secret := with_value secret value in
          let it :=
            {| collection := <[index it := store_secret ev secret]> (collection it);
               index := index it |} in
          Prompted
            [clear_screen;
             print_context
               {| current_index := index it + 1;
                  num_total_secrets := length (collection it);
                  secret := secret;
                  header := Some (status_header right_secret);
                  code_snippet :=
                    Some (get_code_snippet (filename secret) (line_number secret));
                  context_error := None |};
             get_user_decision (can_step_back it) false]
            it
      | inl (SecretNotFoundOnSpecifiedLineError e) =>
          Prompted
            [clear_screen;
             print_secret_not_found
               {| current_index := index it + 1;
                  num_total_secrets := length (collection it);
                  secret := secret;
                  header := None;
                  code_snippet := None;
                  context_error := Some e |};
             get_user_decision (can_step_back it) false]
            it
      | inl (OtherError name) => Failed [clear_screen] name
      end
  end.

(** Lines 224-228: what the decision does to the cursor; [None] is the
    [break]. *)
Definition apply_decision (decision : InputOptions)
    (it : BidirectionalIterator) : option BidirectionalIterator :=
  match decision with
  | QUIT => None
  | BACK => Some (step_back it)
  | _ => Some (advance it)
  end.

(** Lines 176-228: the [for] loop, driven by the decisions the reviewer
    gives, one for each prompt. *)
Fixpoint review_loop (old_config new_config : config)
    (decisions : list InputOptions) (it : BidirectionalIterator)
  : trace * session_end :=
  match collection it !! index it with
  | None => ([], Done)
  | Some ev =>
      match review old_config new_config it ev with
      | Failed shown name => (shown, Aborted name)
      | Prompted shown it =>
          match decisions with
          | [] => (shown, Waiting)
          | decision :: decisions =>
              match apply_decision decision it with
              | None => ((shown ++ [print_message "Quitting..."])%list, Quit)
              | Some it =>
                  let '(rest, e) :=
                    review_loop old_config new_config decisions it in
                  ((shown ++ rest)%list, e)
              end
          end
      end
  end.

(** Lines 163-228.  [list(...)] at line 175 runs the generator to its end
    before the first event is shown, so an exception of the generator
    leaves the function with nothing displayed. *)
Definition _display_difference_to_user
    (old_data new_data : list (string * PotentialSecret) * config)
    (decisions : list InputOptions) : trace * session_end :=
  let '(old_baseline, old_config) := old_data in
  let '(new_baseline, new_config) := new_data in
  let g := _compare_baselines old_baseline new_baseline in
  match ended g with
  | StopIteration =>
      review_loop old_config new_config decisions
                  {| collection := yielded g; index := 0 |}
  | Raised NoLineNumberError => ([], Aborted "NoLineNumberError")
  | Raised UnboundLocalError => ([], Aborted "UnboundLocalError")
  | Raised LeftSecret => ([], Aborted "LeftSecret")
  | Raised RightSecret => ([], Aborted "RightSecret")
  | Unfinished => ([], Waiting)
  end.

(** The two baselines as [_get_baseline_from_file] and [trim] leave them,
    and the text of [NoLineNumberError]. *)
Variable read_baseline : string -> list (string * PotentialSecret) * config.
Variable no_line_number_message : string.

(** Lines 42-57. *)
Definition compare_baselines (old_baseline_filename new_baseline_filename : string)
    (decisions : list InputOptions) : trace * session_end :=
  if String.eqb old_baseline_filename new_baseline_filename
  then ([print_error "This is the same file!"], Done)
  else
    match _display_difference_to_user (read_baseline old_baseline_filename)
                                      (read_baseline new_baseline_filename)
                                      decisions with
    | (shown, Aborted "NoLineNumberError") =>
        ((shown ++ [print_error no_line_number_message])%list, Done)
    | r => r
    end.

End review.

(** *** Reading a trace *)

(** The prompt offers the keep-or-discard question. *)
Definition asks_secret_decision {snippet error : Type}
    (a : action snippet error) : bool :=
  match a with
  | get_user_decision _ prompt_secret_decision => prompt_secret_decision
  | _ => false
  end.

(** The context an action displays, if it displays one. *)
Definition shown_context {snippet error : Type} (a : action snippet error)
  : option (SecretContext snippet error) :=
  match a with
  | print_context context | print_secret_not_found context => Some context
  | _ => None
  end.

(** A position that counts from 1 up to [total]. *)
Definition in_bounds {snippet error : Type} (total : nat)
    (a : action snippet error) : Prop :=
  match shown_context a with
  | Some context =>
      num_total_secrets context = total
      /\ (1 <= current_index context <= total)%nat
  | None => True
  end.

(** A decision that is neither [QUIT] nor [BACK]. *)
Definition advances (decision : InputOptions) : bool :=
  match decision with
  | QUIT | BACK => false
  | _ => true
  end.

(** *** What the body shows for one event

    Lines 177-222 for the event [ev] with the cursor at [position] (from
    0) of [total] events: the screen is cleared; the record of the event
    is resolved under the configuration of its side; the context is
    printed, with value, status header and snippet when that succeeded,
    with the error when [SecretNotFoundOnSpecifiedLineError] was raised;
    and the decision is asked for, with stepping back offered from the
    second event on.  On any other exception only the screen has been
    cleared. *)
Section rounds.

Context {config snippet error : Type}.
Variable get_raw_secret_from_file :
  config -> PotentialSecret -> failure error + string.
Variable get_code_snippet : string -> Z -> snippet.
Variable colorize : string -> AnsiColor -> string.

Definition shown_for (old_config new_config : config)
    (total position : nat) (ev : ChangeEvent)
  : option (action snippet error) :=
  let '(_, left_secret, right_secret) := ev in
  match event_secret ev with
  | None => None
  | Some s =>
      match get_raw_secret_from_file
              (match left_secret with
               | Some _ => old_config
               | None => new_config
               end) s with
      | inr value =>
          Some (print_context
                  {| current_index := position + 1;
                     num_total_secrets := total;
                     secret := with_value s value;
                     header := Some (status_header colorize right_secret);
                     code_snippet :=
                       Some (get_code_snippet (filename s) (line_number s));
                     context_error := None |})
      | inl (SecretNotFoundOnSpecifiedLineError e) =>
          Some (print_secret_not_found
                  {| current_index := position + 1;
                     num_total_secrets := total;
                     secret := s;
                     header := None;
                     code_snippet := None;
                     context_error := Some e |})
      | inl (OtherError _) => None
      end
  end.

Definition round (old_config new_config : config)
    (total position : nat) (ev : ChangeEvent) : list (action snippet error) :=
  match shown_for old_config new_config total position ev with
  | Some a =>
      [clear_screen; a; get_user_decision (0 <? position)%nat false]
  | None => [clear_screen]
  end.

End rounds.

End Session.

(** ** [detect_secrets/util/inject.py] *)

Module Inject.

(** The part of a code object that [get_injectable_variables] reads. *)
Record code := {
  co_varnames : list string;
  co_argcount : nat;
  co_kwonlyargcount : nat
}.

(** A function object: its [__name__] and [__code__], and the two
    attributes the module attaches to it, absent until then. *)
Record function := {
  name : string;
  func_code : code;
  injectable_variables : option (gset string);
  path : option string
}.

(** A class: what [str(klass)] prints and what [getattr(klass, name)]
    finds, as the address of a function object. *)
Record klass := {
  klass_str : string;
  klass_attrs : gmap string nat
}.

Record object := {
  ident : nat;
  class_of : klass
}.

Inductive value :=
| Int (z : Z)
| Str (s : string)
| Obj (o : object).

(** The callables the module tells apart: a plain function, a bound method
    ([__self__] and the address of [__func__]), and an instance of
    [SelfAwareCallable] with its own [injectable_variables], if set. *)
Inductive callable :=
| Function (f : nat)
| Method (self : object) (f : nat)
| SelfAware (o : object) (variables : option (gset string)).

Inductive exception :=
| AttributeError
| IndexError
| Dangling.   (* an address without a function object; no Python program has one *)

(** The store of function objects, shared by every reference to them, and
    the log of the addresses whose code [get_injectable_variables] read. *)
Record state := {
  functions : gmap nat function;
  introspected : list nat
}.

Definition M (A : Type) : Type := state -> (exception + A) * state.

#[export] Instance M_ret : MRet M := fun A a st => (inr a, st).

#[export] Instance M_bind : MBind M := fun A B k m st =>
  match m st with
  | (inl e, st') => (inl e, st')
  | (inr a, st') => k a st'
  end.

Definition raise {A} (e : exception) : M A := fun st => (inl e, st).

(** The function object behind an address. *)
Definition deref (f : nat) : M function :=
  fun st =>
    match functions st !! f with
    | Some fo => (inr fo, st)
    | None => (inl Dangling, st)
    end.

Definition update (f : nat) (change : function -> function) : M unit :=
  fun st =>
    match functions st !! f with
    | Some fo =>
        (inr tt, {| functions := <[f := change fo]> (functions st);
                    introspected := introspected st |})
    | None => (inl Dangling, st)
    end.

Definition set_injectable_variables (variables : gset string)
    (fo : function) : function :=
  {| name := name fo; func_code := func_code fo;
     injectable_variables := Some variables; path := path fo |}.

Definition set_path (p : string) (fo : function) : function :=
  {| name := name fo; func_code := func_code fo;
     injectable_variables := injectable_variables fo; path := Some p |}.

(** [inspect.ismethod]. *)
Definition ismethod (func : callable) : bool :=
  match func with Method _ _ => true | _ => false end.

(** [isinstance(func, SelfAwareCallable)]. *)
Definition is_self_aware (func : callable) : bool :=
  match func with SelfAware _ _ => true | _ => false end.

(** Reading [func.injectable_variables]: a bound method forwards the
    attribute to its function. *)
Definition read_injectable_variables (func : callable) : M (option (gset string)) :=
  match func with
  | Function f | Method _ f => fo ← deref f; mret (injectable_variables fo)
  | SelfAware _ variables => mret variables
  end.

(** Lines 64-80. *)
Definition declared (c : code) : list string :=
  take (co_argcount c + co_kwonlyargcount c) (co_varnames c).

Definition log_introspection (f : nat) : M unit :=
  fun st =>
    (inr tt, {| functions := functions st;
                introspected := (introspected st ++ [f])%list |}).

Definition get_injectable_variables (func : callable) : M (list string) :=
  match func with
  | Function f | Method _ f =>
      fo ← deref f;
      log_introspection f;;
      mret (declared (func_code fo))
  | SelfAware _ _ => raise AttributeError
  end.

(** [getattr(klass, name)]. *)
Definition getattr (k : klass) (attr : string) : M nat :=
  match klass_attrs k !! attr with
  | Some f => mret f
  | None => raise AttributeError
  end.

(** Lines 41-61. *)
Definition make_function_self_aware (func : callable) : M callable :=
  present ← read_injectable_variables func;
  match present with
  | Some _ => mret func
  | None =>
      match func with
      | Method self f =>
          fo ← deref f;
          function ← getattr (class_of self) (name fo);
          variables ← get_injectable_variables func;
          update function (set_injectable_variables (list_to_set variables));;
          update function (set_path (klass_str (class_of self) ++ "." ++ name fo));;
          mret (Function function)
      | Function f =>
          fo ← deref f;
          update f (set_path (name fo));;
          mret func
      | SelfAware _ _ => raise AttributeError
      end
  end.

(** The call of line 38: the callable and the keyword arguments it gets. *)
Record invocation := {
  callee : callable;
  values : gmap string value
}.

(** Lines 11-38. *)
Definition call_function_with_arguments (func : callable)
    (kwargs : gmap string value) : M invocation :=
  function ← (if is_self_aware func then mret func
               else make_function_self_aware func);
  kwargs ← match func with
            | Method self _ =>
                if negb (ismethod function)
                then
                  variables ← get_injectable_variables func;
                  match variables !! 0%nat with
                  | Some first => mret (<[first := Obj self]> kwargs)
                  | None => raise IndexError
                  end
                else mret kwargs
            | _ => mret kwargs
            end;
  injectable ← read_injectable_variables function;
  match injectable with
  | None => raise AttributeError
  | Some injectable =>
      mret {| callee := function;
             values := filter (fun kv => kv.1 ∈ injectable) kwargs |}
  end.

(** The objects of the examples: a decision function declaring [secret]
    only, a class [Hook] with a method [decide(this, secret)], and two of
    its instances. *)
Definition decide_function : function :=
  {| name := "decide";
     func_code := {| co_varnames := ["secret"; "found"];
                     co_argcount := 1; co_kwonlyargcount := 0 |};
     injectable_variables := None; path := None |}.

Definition decide_method : function :=
  {| name := "decide";
     func_code := {| co_varnames := ["this"; "secret"; "found"];
                     co_argcount := 2; co_kwonlyargcount := 0 |};
     injectable_variables := None; path := None |}.

Definition Hook : klass :=
  {| klass_str := "<class 'Hook'>"; klass_attrs := {[ "decide" := 1%nat ]} |}.

Definition hook1 : object := {| ident := 1; class_of := Hook |}.
Definition hook2 : object := {| ident := 2; class_of := Hook |}.

Definition store : state :=
  {| functions := {[ 0%nat := decide_function; 1%nat := decide_method;
                     2%nat := set_injectable_variables {[ "this"; "secret" ]}
                                decide_method ]};
     introspected := [] |}.

Definition pool : gmap string value :=
  {[ "secret" := Str "X"; "header" := Str "Y" ]}.

(** *** What a call leaves of the store *)

(** What makes a function object the function it is: its name and its
    code, as opposed to the two attributes the module attaches. *)
Definition identity (fo : function) : string * code :=
  (name fo, func_code fo).

(** A computation that adds or removes no function object and changes the
    name and the code of none. *)
Definition keeps_functions {A : Type} (m : M A) : Prop :=
  forall st, identity <$> functions (m st).2 = identity <$> functions st.

(** *** More objects for the examples

    A class whose method is overridden in a subclass, a class that lacks
    the name of the function bound to its instance, and a method that
    declares no named parameter. *)
Definition base_decide : function :=
  {| name := "decide";
     func_code := {| co_varnames := ["self"; "secret"];
                     co_argcount := 2; co_kwonlyargcount := 0 |};
     injectable_variables := None; path := None |}.

Definition derived_decide : function :=
  {| name := "decide";
     func_code := {| co_varnames := ["self"; "secret"; "line"];
                     co_argcount := 3; co_kwonlyargcount := 0 |};
     injectable_variables := None; path := None |}.

Definition run_any : function :=
  {| name := "run";
     func_code := {| co_varnames := ["args"; "kwargs"];
                     co_argcount := 0; co_kwonlyargcount := 0 |};
     injectable_variables := None; path := None |}.

Definition wrapper : function :=
  {| name := "wrapper";
     func_code := {| co_varnames := ["self"; "secret"];
                     co_argcount := 2; co_kwonlyargcount := 0 |};
     injectable_variables := None; path := None |}.

Definition Derived : klass :=
  {| klass_str := "<class 'Derived'>";
     klass_attrs := {[ "decide" := 4%nat; "run" := 5%nat; "check" := 6%nat ]} |}.

Definition derived1 : object := {| ident := 3; class_of := Derived |}.

Definition wide_store : state :=
  {| functions := {[ 3%nat := base_decide; 4%nat := derived_decide;
                     5%nat := run_any; 6%nat := wrapper;
                     7%nat := set_injectable_variables {[ "secret" ]}
                                decide_function ]};
     introspected := [] |}.

(** A store in which no function is self-aware yet. *)
Definition fresh_store : state :=
  {| functions := {[ 1%nat := decide_method ]}; introspected := [] |}.

End Inject.

(** * Properties *)

(** ** Python string order

    [str.__lt__] compares code point by code point; on the UTF-8 bytes of
    the two strings that is the byte-wise lexicographic order computed by
    [String.compare]. *)

Module PyStr.

Lemma ascii_compare_refl (c : Ascii.ascii) : Ascii.compare c c = Eq.
Proof. unfold Ascii.compare. apply N.compare_refl. Qed.

Lemma ascii_compare_lt_trans (a b c : Ascii.ascii) :
  Ascii.compare a b = Lt -> Ascii.compare b c = Lt -> Ascii.compare a c = Lt.
Proof.
  unfold Ascii.compare. rewrite !N.compare_lt_iff. apply N.lt_trans.
Qed.

Lemma compare_refl (s : string) : String.compare s s = Eq.
Proof.
  induction s as [|c s IH]; simpl; [reflexivity|].
  now rewrite ascii_compare_refl.
Qed.

Lemma compare_eq (s t : string) : String.compare s t = Eq <-> s = t.
Proof.
  split; [apply String.compare_eq_iff|intros ->; apply compare_refl].
Qed.

Lemma compare_lt_trans (s t u : string) :
  String.compare s t = Lt -> String.compare t u = Lt -> String.compare s u = Lt.
Proof.
  revert t u. induction s as [|a s IH]; intros [|b t] [|c u]; simpl;
    try congruence.
  destruct (Ascii.compare a b) eqn:Hab; try discriminate.
  - apply Ascii.compare_eq_iff in Hab. subst b.
    destruct (Ascii.compare a c); try congruence. apply IH.
  - destruct (Ascii.compare b c) eqn:Hbc; try discriminate.
    + apply Ascii.compare_eq_iff in Hbc. subst c. now rewrite Hab.
    + intros _ _. now rewrite (ascii_compare_lt_trans a b c).
Qed.

Lemma compare_gt_lt (s t : string) :
  String.compare s t = Gt <-> String.compare t s = Lt.
Proof.
  rewrite (String.compare_antisym t s).
  destruct (String.compare s t); simpl; split; congruence.
Qed.

Lemma ltb_lt (s t : string) : String.ltb s t = true <-> String.compare s t = Lt.
Proof. unfold String.ltb. destruct (String.compare s t); split; congruence. Qed.

Lemma ltb_irrefl (s : string) : String.ltb s s = false.
Proof. unfold String.ltb. now rewrite compare_refl. Qed.

Lemma ltb_asym (s t : string) : String.ltb s t = true -> String.ltb t s = false.
Proof.
  unfold String.ltb. rewrite (String.compare_antisym s t).
  destruct (String.compare t s); simpl; congruence.
Qed.

Lemma not_ltb_eq (s t : string) :
  String.ltb s t = false -> String.ltb t s = false -> s = t.
Proof.
  unfold String.ltb. rewrite (String.compare_antisym s t).
  destruct (String.compare t s) eqn:H; simpl; try congruence.
  intros _ _. symmetry. now apply String.compare_eq_iff.
Qed.

End PyStr.

(** ** The diff engine *)

Module CompareFacts.
Import Compare.

(** The scenarios of the specification. *)

Example removed_scenario :
  _compare_baselines [entry "f.py" 10 "h1"] [] =
  {| yielded := [("f.py", Some (secret_of "f.py" 10 "h1"), None)];
     ended := StopIteration |}.
Proof. reflexivity. Qed.

Example added_scenario :
  _compare_baselines [] [entry "f.py" 10 "h1"] =
  {| yielded := [("f.py", None, Some (secret_of "f.py" 10 "h1"))];
     ended := StopIteration |}.
Proof. reflexivity. Qed.

Example same_scenario :
  _compare_baselines [entry "f.py" 10 "h1"] [entry "f.py" 10 "h1"] =
  {| yielded := []; ended := StopIteration |}.
Proof. reflexivity. Qed.

Example two_files_scenario :
  _compare_baselines [entry "a.py" 1 "h1"] [entry "b.py" 1 "h1"] =
  {| yielded := [("a.py", Some (secret_of "a.py" 1 "h1"), None);
                 ("b.py", None, Some (secret_of "b.py" 1 "h1"))];
     ended := StopIteration |}.
Proof. reflexivity. Qed.

(** *** The comparison of lines 117-135 is the order of the sort key *)

Lemma string_gtb (s t : string) :
  String.ltb t s = match String.compare s t with Gt => true | _ => false end.
Proof.
  unfold String.ltb. rewrite (String.compare_antisym t s).
  now destruct (String.compare s t).
Qed.

Lemma Z_gtb (a b : Z) :
  (b <? a)%Z = match (a ?= b)%Z with Gt => true | _ => false end.
Proof.
  unfold Z.ltb. rewrite (Z.compare_antisym a b).
  now destruct (a ?= b)%Z.
Qed.

Lemma compare_secrets_key (l r : PotentialSecret) :
  compare_secrets l r =
  match key_compare l r with
  | Lt => Some LeftSecret
  | Gt => Some RightSecret
  | Eq => None
  end.
Proof.
  unfold compare_secrets, key_compare, lex.
  rewrite (string_gtb (filename l) (filename r)),
    (string_gtb (secret_hash l) (secret_hash r)),
    (Z_gtb (line_number l) (line_number r)).
  unfold String.ltb, Z.ltb.
  destruct (String.compare (filename l) (filename r));
    destruct (line_number l ?= line_number r)%Z;
    destruct (String.compare (secret_hash l) (secret_hash r)); reflexivity.
Qed.

Lemma key_compare_antisym (a b : PotentialSecret) :
  key_compare b a = CompOpp (key_compare a b).
Proof.
  unfold key_compare, lex.
  rewrite (String.compare_antisym (filename b)),
    (Z.compare_antisym (line_number a)),
    (String.compare_antisym (secret_hash b)).
  destruct (String.compare (filename a) (filename b));
    destruct (line_number a ?= line_number b)%Z;
    destruct (String.compare (secret_hash a) (secret_hash b)); reflexivity.
Qed.

Lemma key_compare_eq (a b : PotentialSecret) :
  key_compare a b = Eq <-> same_key a b.
Proof.
  unfold key_compare, lex, same_key. split.
  - destruct (String.compare (filename a) (filename b)) eqn:Hf; try discriminate.
    destruct (line_number a ?= line_number b)%Z eqn:Hn; try discriminate.
    intros Hh. apply PyStr.compare_eq in Hf, Hh. apply Z.compare_eq in Hn.
    auto.
  - intros (-> & -> & ->).
    now rewrite !PyStr.compare_refl, Z.compare_refl.
Qed.

Lemma key_compare_refl (a : PotentialSecret) : key_compare a a = Eq.
Proof. apply key_compare_eq. now repeat split. Qed.

Lemma key_compare_same_l (a b c : PotentialSecret) :
  same_key a b -> key_compare a c = key_compare b c.
Proof. intros (Hf & Hn & Hh). unfold key_compare. now rewrite Hf, Hn, Hh. Qed.

Lemma key_compare_same_r (a b c : PotentialSecret) :
  same_key b c -> key_compare a b = key_compare a c.
Proof. intros (Hf & Hn & Hh). unfold key_compare. now rewrite Hf, Hn, Hh. Qed.

Lemma key_lt_trans (a b c : PotentialSecret) :
  key_compare a b = Lt -> key_compare b c = Lt -> key_compare a c = Lt.
Proof.
  unfold key_compare, lex.
  destruct (String.compare (filename a) (filename b)) eqn:Hab; try discriminate.
  - apply PyStr.compare_eq in Hab. rewrite Hab.
    destruct (String.compare (filename b) (filename c)); try discriminate; auto.
    destruct (line_number a ?= line_number b)%Z eqn:Nab; try discriminate.
    + apply Z.compare_eq in Nab. rewrite Nab.
      destruct (line_number b ?= line_number c)%Z; try discriminate; auto.
      apply PyStr.compare_lt_trans.
    + destruct (line_number b ?= line_number c)%Z eqn:Nbc; try discriminate.
      * apply Z.compare_eq in Nbc. rewrite <- Nbc, Nab. auto.
      * intros _ _.
        rewrite Z.compare_lt_iff in Nab, Nbc.
        assert (H : (line_number a ?= line_number c)%Z = Lt)
          by (apply Z.compare_lt_iff; lia).
        now rewrite H.
  - intros _.
    destruct (String.compare (filename b) (filename c)) eqn:Hbc; try discriminate.
    + apply PyStr.compare_eq in Hbc. rewrite <- Hbc, Hab. auto.
    + intros _. now rewrite (PyStr.compare_lt_trans _ _ _ Hab Hbc).
Qed.

Lemma key_le_refl (a : PotentialSecret) : key_le a a.
Proof. unfold key_le. now rewrite key_compare_refl. Qed.

Lemma key_le_trans (a b c : PotentialSecret) :
  key_le a b -> key_le b c -> key_le a c.
Proof.
  unfold key_le. intros Hab Hbc.
  destruct (key_compare a b) eqn:Eab; try congruence.
  - apply key_compare_eq in Eab. now rewrite (key_compare_same_l a b c).
  - destruct (key_compare b c) eqn:Ebc; try congruence.
    + apply key_compare_eq in Ebc. rewrite <- (key_compare_same_r a b c Ebc).
      congruence.
    + rewrite (key_lt_trans a b c Eab Ebc). congruence.
Qed.

Lemma key_lt_le (a b : PotentialSecret) : key_compare a b = Lt -> key_le a b.
Proof. unfold key_le. congruence. Qed.

Lemma key_gt_le (a b : PotentialSecret) : key_compare a b = Gt -> key_le b a.
Proof. unfold key_le. rewrite (key_compare_antisym a b). intros ->. discriminate. Qed.

(** *** One iteration of the loop *)

Lemma truthy_true (n : Z) : truthy n = true <-> n <> 0%Z.
Proof. unfold truthy. rewrite negb_true_iff. apply Z.eqb_neq. Qed.

Lemma truthy_false (n : Z) : truthy n = false <-> n = 0%Z.
Proof. unfold truthy. rewrite negb_false_iff. apply Z.eqb_eq. Qed.

Lemma skip_while_ge (fuel : nat) (h : string) (secrets : list PotentialSecret)
    (i : nat) :
  (i <= skip_while fuel h secrets i)%nat.
Proof.
  revert i. induction fuel as [|fuel IH]; intros i; simpl; [lia|].
  destruct (secrets !! i) as [s|]; [|lia].
  destruct (String.eqb h (secret_hash s)); [|lia].
  specialize (IH (S i)). lia.
Qed.

Lemma skip_same_hash_head (secrets : list PotentialSecret) (i : nat)
    (s : PotentialSecret) :
  secrets !! i = Some s ->
  (S i <= skip_same_hash (secret_hash s) secrets i)%nat.
Proof.
  intros Hs. unfold skip_same_hash.
  destruct (length secrets) as [|n] eqn:Hlen.
  - apply lookup_lt_Some in Hs. lia.
  - simpl. rewrite Hs, String.eqb_refl. apply skip_while_ge.
Qed.

Section loop.

Variables left_secrets right_secrets : list PotentialSecret.

Abbreviation iterates := (iterates left_secrets right_secrets).

Lemma guard_true (st : locals) :
  guard left_secrets right_secrets st = true <->
  is_Some (left_secrets !! left_index st)
  \/ is_Some (right_secrets !! right_index st).
Proof.
  unfold guard. rewrite orb_true_iff, !Nat.ltb_lt, !lookup_lt_is_Some.
  reflexivity.
Qed.

Lemma guard_false (st : locals) :
  guard left_secrets right_secrets st = false <->
  left_secrets !! left_index st = None
  /\ right_secrets !! right_index st = None.
Proof.
  unfold guard. rewrite orb_false_iff, !Nat.ltb_ge, !lookup_ge_None.
  reflexivity.
Qed.

Lemma iteration_iterates (st : locals) :
  guard left_secrets right_secrets st = true ->
  iterates st (iteration left_secrets right_secrets st).
Proof.
  intros Hg. apply guard_true in Hg.
  unfold iteration, fetch.
  destruct (left_secrets !! left_index st) as [l|] eqn:Hl;
    destruct (right_secrets !! right_index st) as [r|] eqn:Hr.
  - destruct (truthy (line_number l)) eqn:Tl;
      [apply truthy_true in Tl
      |apply truthy_false in Tl; eapply iterates_no_line_left; eauto].
    destruct (truthy (line_number r)) eqn:Tr;
      [apply truthy_true in Tr
      |apply truthy_false in Tr; eapply iterates_no_line_right; eauto].
    rewrite compare_secrets_key.
    destruct (key_compare l r) eqn:Hk; simpl.
    + eapply iterates_match; eauto.
    + eapply iterates_left; eauto. rewrite Hr. auto.
    + eapply iterates_right; eauto. rewrite Hl. auto.
  - destruct (truthy (line_number l)) eqn:Tl;
      [apply truthy_true in Tl
      |apply truthy_false in Tl; eapply iterates_no_line_left; eauto].
    simpl. eapply iterates_left; eauto. now rewrite Hr.
  - destruct (truthy (line_number r)) eqn:Tr;
      [apply truthy_true in Tr
      |apply truthy_false in Tr; eapply iterates_no_line_right; eauto].
    simpl. eapply iterates_right; eauto. now rewrite Hl.
  - destruct Hg as [[? ?]|[? ?]]; discriminate.
Qed.

(** Every iteration that goes on moves a cursor forward. *)
Lemma iterates_remaining (st st' : locals) (s : step) :
  iterates st s ->
  (s = Next st' \/ exists ev, s = Yield ev st') ->
  (remaining left_secrets right_secrets st'
   < remaining left_secrets right_secrets st)%nat.
Proof.
  unfold remaining.
  intros H Hs. destruct H as [| |l ? Hl _ _ E1 E2|r ? Hr _ _ E1 E2
                              |l r ? Hl Hr _ _ _ E1 E2];
    destruct Hs as [Hs|[ev Hs]]; inversion Hs; subst.
  - apply lookup_lt_Some in Hl. lia.
  - apply lookup_lt_Some in Hr. lia.
  - pose proof (skip_same_hash_head _ _ _ Hl).
    pose proof (skip_same_hash_head _ _ _ Hr).
    apply lookup_lt_Some in Hl. apply lookup_lt_Some in Hr. lia.
Qed.

(** The fuel of [_compare_baselines] is never used up, and the only
    exception that leaves the generator is [NoLineNumberError]. *)
Lemma run_finishes (fuel : nat) (st : locals) :
  (remaining left_secrets right_secrets st <= fuel)%nat ->
  ended (run fuel left_secrets right_secrets st) = StopIteration
  \/ ended (run fuel left_secrets right_secrets st) = Raised NoLineNumberError.
Proof.
  revert st. induction fuel as [|fuel IH]; intros st Hrem.
  - simpl. fold (guard left_secrets right_secrets st).
    destruct (guard left_secrets right_secrets st) eqn:Hg; [|now left].
    unfold guard in Hg. apply orb_true_iff in Hg.
    rewrite !Nat.ltb_lt in Hg. unfold remaining in Hrem. lia.
  - simpl. fold (guard left_secrets right_secrets st).
    destruct (guard left_secrets right_secrets st) eqn:Hg; [|now left].
    pose proof (iteration_iterates st Hg) as Hit.
    destruct (iteration left_secrets right_secrets st) as [e|ev st'|st'] eqn:Hi.
    + right. simpl. inversion Hit; reflexivity.
    + simpl. apply IH.
      pose proof (iterates_remaining st st' _ Hit (or_intror (ex_intro _ ev eq_refl))).
      lia.
    + apply IH.
      pose proof (iterates_remaining st st' _ Hit (or_introl eq_refl)).
      lia.
Qed.

(** The induction principle of the loop: a property of the state and of
    what the generator yields from it holds as soon as the four kinds of
    iteration keep it. *)
Lemma run_rule (P : locals -> generated -> Prop) :
  (forall st,
      guard left_secrets right_secrets st = false ->
      P st {| yielded := []; ended := StopIteration |}) ->
  (forall st,
      iterates st (Propagate NoLineNumberError) ->
      P st {| yielded := []; ended := Raised NoLineNumberError |}) ->
  (forall st ev st' g,
      iterates st (Yield ev st') -> P st' g -> P st (emit ev g)) ->
  (forall st st' g,
      iterates st (Next st') -> P st' g -> P st g) ->
  forall fuel st,
    (remaining left_secrets right_secrets st <= fuel)%nat ->
    P st (run fuel left_secrets right_secrets st).
Proof.
  intros Hstop Hraise Hyield Hnext.
  induction fuel as [|fuel IH]; intros st Hrem.
  - simpl. fold (guard left_secrets right_secrets st).
    destruct (guard left_secrets right_secrets st) eqn:Hg; [|now apply Hstop].
    unfold guard in Hg. apply orb_true_iff in Hg.
    rewrite !Nat.ltb_lt in Hg. unfold remaining in Hrem. lia.
  - simpl. fold (guard left_secrets right_secrets st).
    destruct (guard left_secrets right_secrets st) eqn:Hg; [|now apply Hstop].
    pose proof (iteration_iterates st Hg) as Hit.
    destruct (iteration left_secrets right_secrets st) as [e|ev st'|st'] eqn:Hi.
    + assert (e = NoLineNumberError) as -> by (inversion Hit; reflexivity).
      now apply Hraise.
    + apply (Hyield st ev st'); [exact Hit|]. apply IH.
      pose proof (iterates_remaining st st' _ Hit
                    (or_intror (ex_intro _ ev eq_refl))).
      lia.
    + apply (Hnext st st'); [exact Hit|]. apply IH.
      pose proof (iterates_remaining st st' _ Hit (or_introl eq_refl)).
      lia.
Qed.

Lemma run_one_sided (fuel : nat) (st : locals) :
  (remaining left_secrets right_secrets st <= fuel)%nat ->
  Forall one_sided (yielded (run fuel left_secrets right_secrets st)).
Proof.
  revert fuel st.
  apply (run_rule (fun _ g => Forall one_sided (yielded g))); simpl; auto.
  intros st ev st' g Hit IH. constructor; [|exact IH].
  inversion Hit; subst; reflexivity.
Qed.

End loop.

Lemma initial_remaining (ls rs : list PotentialSecret) :
  (remaining ls rs initial <= length ls + length rs)%nat.
Proof. unfold remaining, initial. simpl. lia. Qed.

(** *** Exchanging the two baselines *)

Lemma mirror_event_involutive (ev : ChangeEvent) :
  mirror_event (mirror_event ev) = ev.
Proof. now destruct ev as [[f l] r]. Qed.

Lemma guard_mirror (ls rs : list PotentialSecret) (st : locals) :
  guard rs ls (mirror_locals st) = guard ls rs st.
Proof. unfold guard. simpl. apply orb_comm. Qed.

Lemma iteration_mirror (ls rs : list PotentialSecret) (st : locals) :
  guard ls rs st = true ->
  iteration rs ls (mirror_locals st) = mirror_step (iteration ls rs st).
Proof.
  intros Hg. apply guard_true in Hg.
  unfold iteration, fetch. simpl.
  destruct (ls !! left_index st) as [l|] eqn:Hl;
    destruct (rs !! right_index st) as [r|] eqn:Hr; simpl.
  - destruct (truthy (line_number l)), (truthy (line_number r)); simpl;
      try reflexivity.
    rewrite !compare_secrets_key, (key_compare_antisym l r).
    destruct (key_compare l r); reflexivity.
  - destruct (truthy (line_number l)); reflexivity.
  - destruct (truthy (line_number r)); reflexivity.
  - destruct Hg as [[? ?]|[? ?]]; discriminate.
Qed.

Lemma run_unfold (fuel : nat) (ls rs : list PotentialSecret) (st : locals) :
  run fuel ls rs st =
  if guard ls rs st then
    match fuel with
    | O => {| yielded := []; ended := Unfinished |}
    | S fuel' =>
        match iteration ls rs st with
        | Propagate e => {| yielded := []; ended := Raised e |}
        | Yield ev st' => emit ev (run fuel' ls rs st')
        | Next st' => run fuel' ls rs st'
        end
    end
  else {| yielded := []; ended := StopIteration |}.
Proof. destruct fuel; reflexivity. Qed.

Lemma run_mirror (fuel : nat) (ls rs : list PotentialSecret) (st : locals) :
  run fuel rs ls (mirror_locals st) = mirror (run fuel ls rs st).
Proof.
  revert st. induction fuel as [|fuel IH]; intros st;
    rewrite (run_unfold _ rs ls), (run_unfold _ ls rs), guard_mirror;
    destruct (guard ls rs st) eqn:Hg; try reflexivity.
  rewrite (iteration_mirror ls rs st Hg).
  destruct (iteration ls rs st) as [e|ev st'|st']; simpl.
  - reflexivity.
  - rewrite IH. reflexivity.
  - apply IH.
Qed.

(** *** Order of the events *)

Lemma strongly_sorted_lookup (secrets : list PotentialSecret) (i j : nat)
    (a b : PotentialSecret) :
  StronglySorted key_le secrets ->
  (i <= j)%nat -> secrets !! i = Some a -> secrets !! j = Some b ->
  key_le a b.
Proof.
  intros Hs. revert i j. induction Hs as [|x l Hs IH Hall]; intros i j Hij Ha Hb.
  - discriminate.
  - destruct i as [|i], j as [|j]; simpl in *; try lia.
    + inversion Ha; inversion Hb; subst. apply key_le_refl.
    + inversion Ha; subst. rewrite Forall_forall in Hall.
      apply Hall. eapply list_elem_of_lookup_2. exact Hb.
    + apply (IH i j); auto. lia.
Qed.

Section order.

Variables left_secrets right_secrets : list PotentialSecret.
Hypothesis left_ordered : ordered left_secrets.
Hypothesis right_ordered : ordered right_secrets.

Abbreviation below := (below left_secrets right_secrets).

Lemma below_mono (k : PotentialSecret) (st st' : locals) :
  (left_index st <= left_index st')%nat ->
  (right_index st <= right_index st')%nat ->
  below k st -> below k st'.
Proof.
  intros Hl Hr [Bl Br]. split; intros j s Hj Hs.
  - apply (Bl j); auto. lia.
  - apply (Br j); auto. lia.
Qed.

Lemma run_ordered (fuel : nat) (st : locals) :
  (remaining left_secrets right_secrets st <= fuel)%nat ->
  StronglySorted event_le (yielded (run fuel left_secrets right_secrets st))
  /\ forall k, below k st ->
       Forall (above k) (yielded (run fuel left_secrets right_secrets st)).
Proof.
  pose proof (Sorted_StronglySorted key_le_trans left_ordered) as SL.
  pose proof (Sorted_StronglySorted key_le_trans right_ordered) as SR.
  revert fuel st.
  apply (run_rule left_secrets right_secrets
           (fun st g => StronglySorted event_le (yielded g)
                        /\ forall k, below k st -> Forall (above k) (yielded g)));
    simpl.
  - intros st _. split; [constructor|]. intros; constructor.
  - intros st _. split; [constructor|]. intros; constructor.
  - intros st ev st' g Hit [IHs IHb].
    assert (Hev : exists s, event_secret ev = Some s /\ below s st'
                           /\ forall k, below k st -> key_le k s /\ below k st').
    { inversion Hit as [| |l ? Hl _ Hr E1 E2|r ? Hr _ Hl E1 E2|]; subst.
      - exists l. split; [reflexivity|]. split.
        + split; intros j s Hj Hs.
          * apply (strongly_sorted_lookup left_secrets (left_index st) j); auto.
            lia.
          * rewrite E2 in Hj.
            destruct (right_secrets !! right_index st) as [r|] eqn:Er.
            -- destruct Hr as [_ Hlt].
               apply (key_le_trans l r s); [now apply key_lt_le|].
               now apply (strongly_sorted_lookup right_secrets
                            (right_index st) j).
            -- apply lookup_ge_None in Er.
               apply lookup_lt_Some in Hs. lia.
        + intros k Hk. split.
          * destruct Hk as [Bl _]. now apply (Bl (left_index st)).
          * apply (below_mono k st); auto; lia.
      - exists r. split; [reflexivity|]. split.
        + split; intros j s Hj Hs.
          * rewrite E1 in Hj.
            destruct (left_secrets !! left_index st) as [l|] eqn:El.
            -- destruct Hl as [_ Hgt].
               apply (key_le_trans r l s); [now apply key_gt_le|].
               now apply (strongly_sorted_lookup left_secrets
                            (left_index st) j).
            -- apply lookup_ge_None in El.
               apply lookup_lt_Some in Hs. lia.
          * apply (strongly_sorted_lookup right_secrets (right_index st) j);
              auto. lia.
        + intros k Hk. split.
          * destruct Hk as [_ Br]. now apply (Br (right_index st)).
          * apply (below_mono k st); auto; lia. }
    destruct Hev as (s & Hs & Hbelow & Hk). split.
    + constructor; [exact IHs|].
      eapply Forall_impl; [exact (IHb s Hbelow)|].
      intros ev' (s' & Hs' & Hle). unfold event_le. now rewrite Hs, Hs'.
    + intros k Bk. destruct (Hk k Bk) as [Hle Bk'].
      constructor; [exists s; auto|]. now apply IHb.
  - intros st st' g Hit [IHs IHb]. split; [exact IHs|].
    intros k Bk. apply IHb. apply (below_mono k st); auto.
    + inversion Hit as [| | | |l r ? Hl Hr _ _ _ E1 E2]; subst.
      rewrite E1. pose proof (skip_same_hash_head _ _ _ Hl). lia.
    + inversion Hit as [| | | |l r ? Hl Hr _ _ _ E1 E2]; subst.
      rewrite E2. pose proof (skip_same_hash_head _ _ _ Hr). lia.
Qed.

End order.

(** *** A baseline against itself *)

Lemma run_same (secrets : list PotentialSecret) (fuel : nat) (st : locals) :
  Forall (fun s => line_number s <> 0%Z) secrets ->
  (remaining secrets secrets st <= fuel)%nat ->
  left_index st = right_index st ->
  run fuel secrets secrets st = {| yielded := []; ended := StopIteration |}.
Proof.
  intros Hlines. revert fuel st.
  apply (run_rule secrets secrets
           (fun st g => left_index st = right_index st ->
                        g = {| yielded := []; ended := StopIteration |})).
  - reflexivity.
  - intros st Hit _. exfalso.
    inversion Hit as [l Hl Hz|r Hr Hz| | |]; subst;
      eapply (Forall_lookup_1 _ _ _ _ Hlines); eauto.
  - intros st ev st' g Hit _ Heq. exfalso.
    inversion Hit as [| |l ? Hl _ Hr _ _|r ? Hr _ Hl _ _|]; subst.
    + rewrite <- Heq, Hl in Hr. destruct Hr as [_ Hr].
      rewrite key_compare_refl in Hr. discriminate.
    + rewrite Heq, Hr in Hl. destruct Hl as [_ Hl].
      rewrite key_compare_refl in Hl. discriminate.
  - intros st st' g Hit IH Heq. apply IH.
    inversion Hit as [| | | |l r ? Hl Hr _ _ _ E1 E2]; subst.
    rewrite Heq, Hr in Hl. inversion Hl; subst. congruence.
Qed.

(** *** The records passed over after a match *)

Lemma same_key_refl (a : PotentialSecret) : same_key a a.
Proof. now repeat split. Qed.

Lemma same_key_sym (a b : PotentialSecret) : same_key a b -> same_key b a.
Proof. intros (? & ? & ?). now repeat split. Qed.

Lemma same_key_trans (a b c : PotentialSecret) :
  same_key a b -> same_key b c -> same_key a c.
Proof. intros (? & ? & ?) (? & ? & ?). repeat split; congruence. Qed.

Lemma key_lt_le_trans (a b c : PotentialSecret) :
  key_compare a b = Lt -> key_le b c -> key_compare a c = Lt.
Proof.
  intros Hab Hbc. unfold key_le in Hbc.
  destruct (key_compare b c) eqn:Ebc; try congruence.
  - apply key_compare_eq in Ebc. now rewrite <- (key_compare_same_r a b c Ebc).
  - now apply (key_lt_trans a b c).
Qed.

Lemma key_eqb_true (k s : PotentialSecret) : key_eqb k s = true <-> same_key k s.
Proof.
  unfold key_eqb. rewrite <- key_compare_eq.
  destruct (key_compare k s); split; congruence.
Qed.

Lemma key_eqb_same (k l s : PotentialSecret) :
  same_key k l -> key_eqb k s = key_eqb l s.
Proof. intros H. unfold key_eqb. now rewrite (key_compare_same_l k l s H). Qed.

Lemma key_eqb_lt (l s : PotentialSecret) :
  key_compare l s = Lt -> key_eqb l s = false.
Proof. unfold key_eqb. now intros ->. Qed.

Lemma key_eqb_gt (l s : PotentialSecret) :
  key_compare s l = Lt -> key_eqb l s = false.
Proof.
  unfold key_eqb. rewrite (key_compare_antisym s l). now intros ->.
Qed.

Lemma with_key_none (k : PotentialSecret) (secrets : list PotentialSecret) :
  Forall (fun s => key_eqb k s = false) secrets -> with_key k secrets = [].
Proof.
  induction 1 as [|s l Hs _ IH]; [reflexivity|].
  unfold with_key in *. simpl. now rewrite Hs.
Qed.

Lemma with_key_all (k : PotentialSecret) (secrets : list PotentialSecret) :
  Forall (fun s => key_eqb k s = true) secrets -> with_key k secrets = secrets.
Proof.
  induction 1 as [|s l Hs _ IH]; [reflexivity|].
  unfold with_key in *. simpl. now rewrite Hs, IH.
Qed.

Lemma with_key_app (k : PotentialSecret) (l1 l2 : list PotentialSecret) :
  with_key k (l1 ++ l2)%list = (with_key k l1 ++ with_key k l2)%list.
Proof. apply List.filter_app. Qed.

(** The index line 143 stops at, on what is left of the list. *)
Lemma skip_while_drop (h : string) (secrets : list PotentialSecret)
    (fuel i : nat) :
  (length secrets - i <= fuel)%nat ->
  skip_while fuel h secrets i = (i + prefix_len h (drop i secrets))%nat.
Proof.
  revert i. induction fuel as [|fuel IH]; intros i Hf; simpl.
  - rewrite drop_ge by lia. simpl. lia.
  - destruct (secrets !! i) as [s|] eqn:Hs.
    + rewrite (drop_S _ _ _ Hs). simpl.
      destruct (String.eqb h (secret_hash s)); [|lia].
      rewrite IH by lia. lia.
    + apply lookup_ge_None in Hs. rewrite drop_ge by lia. simpl. lia.
Qed.

Lemma skip_same_hash_drop (h : string) (secrets : list PotentialSecret)
    (i : nat) :
  skip_same_hash h secrets i = (i + prefix_len h (drop i secrets))%nat.
Proof. apply skip_while_drop. lia. Qed.

Lemma prefix_len_stops (h : string) (secrets : list PotentialSecret) :
  match drop (prefix_len h secrets) secrets with
  | [] => True
  | s :: _ => secret_hash s <> h
  end.
Proof.
  induction secrets as [|s l IH]; simpl; [exact I|].
  destruct (String.eqb h (secret_hash s)) eqn:E; simpl; [exact IH|].
  apply String.eqb_neq in E. congruence.
Qed.

Lemma hash_follows_key_tail (s : PotentialSecret) (l : list PotentialSecret) :
  hash_follows_key (s :: l) -> hash_follows_key l.
Proof. intros H i a b Ha Hb. apply (H (S i)); assumption. Qed.

Lemma hash_follows_key_drop (secrets : list PotentialSecret) (i : nat) :
  hash_follows_key secrets -> hash_follows_key (drop i secrets).
Proof.
  intros H j a b Ha Hb. rewrite lookup_drop in Ha, Hb.
  apply (H (i + j)%nat); [assumption|].
  now replace (S (i + j)) with (i + S j)%nat by lia.
Qed.

(** On a baseline whose hashes follow the keys, the records passed over
    have the key of the matched record. *)
Lemma passed_over_same_key (l : PotentialSecret) (rest : list PotentialSecret) :
  hash_follows_key (l :: rest) ->
  Forall (same_key l) (take (prefix_len (secret_hash l) rest) rest).
Proof.
  revert l. induction rest as [|s rest IH]; intros l H; simpl; [constructor|].
  destruct (String.eqb (secret_hash l) (secret_hash s)) eqn:E;
    [|constructor].
  apply String.eqb_eq in E.
  assert (Hls : same_key l s) by (apply (H 0%nat); auto).
  simpl. constructor; [exact Hls|].
  rewrite E.
  eapply Forall_impl; [apply IH; eapply hash_follows_key_tail; exact H|].
  intros x Hx. now apply (same_key_trans l s x).
Qed.

Lemma strongly_sorted_drop (secrets : list PotentialSecret) (i : nat) :
  StronglySorted key_le secrets -> StronglySorted key_le (drop i secrets).
Proof.
  intros H. revert i. induction H as [|s l Hl IH Hs]; intros [|i]; simpl;
    try constructor; auto.
Qed.

(** When the baseline is sorted as well, every record after them comes
    strictly later. *)
Lemma after_passed_over_later (l : PotentialSecret) (rest : list PotentialSecret) :
  StronglySorted key_le (l :: rest) ->
  Forall (fun s => key_compare l s = Lt)
         (drop (prefix_len (secret_hash l) rest) rest).
Proof.
  intros H. inversion H as [|? ? Hrest Hle]; subst.
  pose proof (prefix_len_stops (secret_hash l) rest) as Hstop.
  pose proof (strongly_sorted_drop rest (prefix_len (secret_hash l) rest) Hrest)
    as Hsorted.
  pose proof (Forall_drop _ (prefix_len (secret_hash l) rest) _ Hle) as Hle'.
  destruct (drop (prefix_len (secret_hash l) rest) rest) as [|s after];
    [constructor|].
  inversion Hsorted as [|? ? _ Hafter]; subst.
  inversion Hle' as [|? ? Hs _]; subst.
  assert (Hlt : key_compare l s = Lt).
  { unfold key_le in Hs. destruct (key_compare l s) eqn:E; try congruence.
    apply key_compare_eq in E. destruct E as (_ & _ & E). congruence. }
  constructor; [exact Hlt|].
  eapply Forall_impl; [exact Hafter|].
  intros x Hx. now apply (key_lt_le_trans l s x).
Qed.

(** *** Coverage, one iteration at a time *)

Lemma covered_nil (k : PotentialSecret) : covered k [] [] [].
Proof. unfold covered. simpl. tauto. Qed.

Lemma covered_left (k l : PotentialSecret) (L R : list PotentialSecret)
    (events : list ChangeEvent) :
  Forall (fun s => key_compare l s = Lt) R ->
  covered k L R events ->
  covered k (l :: L) R ((filename l, Some l, None) :: events).
Proof.
  intros HR (C1 & C2 & C3).
  unfold covered, lefts, rights, with_key in *. simpl.
  destruct (key_eqb k l) eqn:E.
  - assert (HkR : List.filter (key_eqb k) R = []).
    { apply with_key_none. eapply Forall_impl; [exact HR|].
      intros s Hs. apply key_eqb_true in E.
      rewrite (key_eqb_same k l s E). now apply key_eqb_lt. }
    destruct (C1 HkR) as [C1l C1r].
    split; [|split].
    + intros _. split; [f_equal; exact C1l|exact C1r].
    + discriminate.
    + intros _ Hne. contradiction.
  - split; [|split]; assumption.
Qed.

Lemma covered_right (k r : PotentialSecret) (L R : list PotentialSecret)
    (events : list ChangeEvent) :
  Forall (fun s => key_compare r s = Lt) L ->
  covered k L R events ->
  covered k L (r :: R) ((filename r, None, Some r) :: events).
Proof.
  intros HL (C1 & C2 & C3).
  unfold covered, lefts, rights, with_key in *. simpl.
  destruct (key_eqb k r) eqn:E.
  - assert (HkL : List.filter (key_eqb k) L = []).
    { apply with_key_none. eapply Forall_impl; [exact HL|].
      intros s Hs. apply key_eqb_true in E.
      rewrite (key_eqb_same k r s E). now apply key_eqb_lt. }
    destruct (C2 HkL) as [C2r C2l].
    split; [|split].
    + discriminate.
    + intros _. split; [f_equal; exact C2r|exact C2l].
    + intros Hne _. contradiction.
  - split; [|split]; assumption.
Qed.

Lemma with_key_block (k l : PotentialSecret) (block after : list PotentialSecret) :
  Forall (same_key l) block ->
  Forall (fun s => key_compare l s = Lt) after ->
  with_key k (block ++ after)%list =
  if key_eqb k l then block else with_key k after.
Proof.
  intros Hb Ha. rewrite with_key_app.
  destruct (key_eqb k l) eqn:E.
  - apply key_eqb_true in E.
    rewrite (with_key_all k block), (with_key_none k after).
    + apply app_nil_r.
    + eapply Forall_impl; [exact Ha|]. intros s Hs.
      rewrite (key_eqb_same k l s E). now apply key_eqb_lt.
    + eapply Forall_impl; [exact Hb|]. intros s Hs.
      apply key_eqb_true. now apply (same_key_trans k l s).
  - rewrite (with_key_none k block); [reflexivity|].
    eapply Forall_impl; [exact Hb|]. intros s Hs.
    destruct (key_eqb k s) eqn:E'; [|reflexivity].
    apply key_eqb_true in E'.
    assert (same_key k l)
      by (apply (same_key_trans k s l); [exact E'|now apply same_key_sym]).
    apply key_eqb_true in H. congruence.
Qed.

Lemma covered_match (k l r : PotentialSecret)
    (Lb L' Rb R' : list PotentialSecret) (events : list ChangeEvent) :
  same_key l r ->
  Lb <> [] -> Rb <> [] ->
  Forall (same_key l) Lb -> Forall (same_key r) Rb ->
  Forall (fun s => key_compare l s = Lt) L' ->
  Forall (fun s => key_compare r s = Lt) R' ->
  covered k L' R' events ->
  covered k (Lb ++ L')%list (Rb ++ R')%list events.
Proof.
  intros Hlr HLb HRb HLs HRs HL' HR' (C1 & C2 & C3).
  unfold covered.
  rewrite (with_key_block k l Lb L' HLs HL'), (with_key_block k r Rb R' HRs HR').
  assert (Hsym : key_eqb k r = key_eqb k l).
  { unfold key_eqb. now rewrite (key_compare_same_r k l r Hlr). }
  rewrite Hsym.
  destruct (key_eqb k l) eqn:E.
  - assert (HkL : with_key k L' = []).
    { apply with_key_none. eapply Forall_impl; [exact HL'|]. intros s Hs.
      apply key_eqb_true in E. rewrite (key_eqb_same k l s E).
      now apply key_eqb_lt. }
    assert (HkR : with_key k R' = []).
    { apply with_key_none. eapply Forall_impl; [exact HR'|]. intros s Hs.
      apply key_eqb_true in E.
      rewrite (key_eqb_same k r s (same_key_trans k l r E Hlr)).
      now apply key_eqb_lt. }
    destruct (C1 HkR) as [C1l C1r]. rewrite HkL in C1l.
    split; [|split].
    + intros Hnil. contradiction.
    + intros Hnil. contradiction.
    + intros _ _. split; assumption.
  - split; [|split]; assumption.
Qed.

(** *** The loop on baselines whose hashes follow the keys *)

Lemma passed_over_block (secrets : list PotentialSecret) (i : nat)
    (l : PotentialSecret) :
  secrets !! i = Some l ->
  hash_follows_key secrets ->
  exists block,
    block <> []
    /\ drop i secrets =
       (block ++ drop (skip_same_hash (secret_hash l) secrets i) secrets)%list
    /\ Forall (same_key l) block.
Proof.
  intros Hl Hk.
  rewrite skip_same_hash_drop, (drop_S _ _ _ Hl). simpl.
  rewrite String.eqb_refl.
  set (rest := drop (S i) secrets).
  set (n := prefix_len (secret_hash l) rest).
  exists (l :: take n rest). split; [discriminate|]. split.
  - replace (i + S n)%nat with (S i + n)%nat by lia.
    rewrite <- drop_drop. fold rest. simpl. now rewrite take_drop.
  - constructor; [apply same_key_refl|].
    apply passed_over_same_key.
    pose proof (hash_follows_key_drop secrets i Hk) as Hk'.
    now rewrite (drop_S _ _ _ Hl) in Hk'.
Qed.

Lemma passed_over_rest (secrets : list PotentialSecret) (i : nat)
    (l : PotentialSecret) :
  secrets !! i = Some l ->
  StronglySorted key_le secrets ->
  Forall (fun s => key_compare l s = Lt)
         (drop (skip_same_hash (secret_hash l) secrets i) secrets).
Proof.
  intros Hl Hs.
  rewrite skip_same_hash_drop, (drop_S _ _ _ Hl). simpl.
  rewrite String.eqb_refl.
  set (rest := drop (S i) secrets).
  replace (i + S (prefix_len (secret_hash l) rest))%nat
    with (S i + prefix_len (secret_hash l) rest)%nat by lia.
  rewrite <- drop_drop. fold rest.
  apply after_passed_over_later.
  pose proof (strongly_sorted_drop secrets i Hs) as Hs'.
  now rewrite (drop_S _ _ _ Hl) in Hs'.
Qed.

Lemma later_than_head (secrets : list PotentialSecret) (i : nat)
    (a : PotentialSecret) :
  StronglySorted key_le secrets ->
  match secrets !! i with
  | None => True
  | Some b => key_compare a b = Lt
  end ->
  Forall (fun s => key_compare a s = Lt) (drop i secrets).
Proof.
  intros Hs Hhead.
  destruct (secrets !! i) as [b|] eqn:Hb.
  - pose proof (strongly_sorted_drop secrets i Hs) as Hs'.
    rewrite (drop_S _ _ _ Hb) in *.
    inversion Hs' as [|? ? _ Hle]; subst.
    constructor; [exact Hhead|].
    eapply Forall_impl; [exact Hle|].
    intros x Hx. now apply (key_lt_le_trans a b x).
  - apply lookup_ge_None in Hb. rewrite drop_ge by lia. constructor.
Qed.

Section keyed.

Variables left_secrets right_secrets : list PotentialSecret.
Hypothesis left_keyed : hash_follows_key left_secrets.
Hypothesis right_keyed : hash_follows_key right_secrets.

(** A record without line number is reached by a cursor. *)
Lemma run_raises (fuel : nat) (st : locals) :
  (remaining left_secrets right_secrets st <= fuel)%nat ->
  Exists lacks_line (drop (left_index st) left_secrets)
  \/ Exists lacks_line (drop (right_index st) right_secrets) ->
  ended (run fuel left_secrets right_secrets st) = Raised NoLineNumberError.
Proof.
  revert fuel st.
  apply (run_rule left_secrets right_secrets
           (fun st g =>
              Exists lacks_line (drop (left_index st) left_secrets)
              \/ Exists lacks_line (drop (right_index st) right_secrets) ->
              ended g = Raised NoLineNumberError)).
  - intros st Hg Hex. apply guard_false in Hg. destruct Hg as [Hl Hr].
    apply lookup_ge_None in Hl, Hr.
    rewrite !drop_ge in Hex by lia.
    destruct Hex as [Hex|Hex]; inversion Hex.
  - reflexivity.
  - intros st ev st' g Hit IH Hex. simpl. apply IH.
    inversion Hit as [| |l ? Hl Hn _ E1 E2|r ? Hr Hn _ E1 E2|]; subst;
      rewrite E1, E2.
    + rewrite (drop_S _ _ _ Hl) in Hex.
      destruct Hex as [Hex|Hex]; [|now right].
      apply Exists_cons in Hex as [Hex|Hex]; [contradiction|now left].
    + rewrite (drop_S _ _ _ Hr) in Hex.
      destruct Hex as [Hex|Hex]; [now left|].
      apply Exists_cons in Hex as [Hex|Hex]; [contradiction|now right].
  - intros st st' g Hit IH Hex. apply IH.
    inversion Hit as [| | | |l r ? Hl Hr Hnl Hnr _ E1 E2]; subst.
    rewrite E1, E2.
    destruct (passed_over_block left_secrets _ l Hl left_keyed)
      as (Lb & _ & HLb & HLs).
    destruct (passed_over_block right_secrets _ r Hr right_keyed)
      as (Rb & _ & HRb & HRs).
    rewrite HLb, HRb in Hex.
    destruct Hex as [Hex|Hex]; apply Exists_app in Hex as [Hex|Hex];
      [exfalso|now left|exfalso|now right];
      apply Exists_exists in Hex as (s & Hin & Hs);
      [rewrite Forall_forall in HLs; apply HLs in Hin
      |rewrite Forall_forall in HRs; apply HRs in Hin];
      destruct Hin as (_ & Hline & _); unfold lacks_line in Hs; congruence.
Qed.

Hypothesis left_ordered : ordered left_secrets.
Hypothesis right_ordered : ordered right_secrets.
Hypothesis left_lines : Forall (fun s => line_number s <> 0%Z) left_secrets.
Hypothesis right_lines : Forall (fun s => line_number s <> 0%Z) right_secrets.

Lemma run_covered (fuel : nat) (st : locals) :
  (remaining left_secrets right_secrets st <= fuel)%nat ->
  ended (run fuel left_secrets right_secrets st) = StopIteration
  /\ forall k,
       covered k (drop (left_index st) left_secrets)
                 (drop (right_index st) right_secrets)
                 (yielded (run fuel left_secrets right_secrets st)).
Proof.
  pose proof (Sorted_StronglySorted key_le_trans left_ordered) as SL.
  pose proof (Sorted_StronglySorted key_le_trans right_ordered) as SR.
  revert fuel st.
  apply (run_rule left_secrets right_secrets
           (fun st g =>
              ended g = StopIteration
              /\ forall k,
                   covered k (drop (left_index st) left_secrets)
                             (drop (right_index st) right_secrets)
                             (yielded g))).
  - intros st Hg. apply guard_false in Hg. destruct Hg as [Hl Hr].
    apply lookup_ge_None in Hl, Hr. split; [reflexivity|]. intros k.
    rewrite !drop_ge by lia. apply covered_nil.
  - intros st Hit. exfalso.
    inversion Hit as [l Hl Hz|r Hr Hz| | |]; subst;
      [eapply (Forall_lookup_1 _ _ _ _ left_lines)
      |eapply (Forall_lookup_1 _ _ _ _ right_lines)]; eauto.
  - intros st ev st' g Hit [IHe IH]. split; [exact IHe|]. intros k. simpl.
    specialize (IH k).
    inversion Hit as [| |l ? Hl _ Hr E1 E2|r ? Hr _ Hl E1 E2|]; subst;
      rewrite E1, E2 in IH.
    + rewrite (drop_S _ _ _ Hl). apply covered_left; [|exact IH].
      apply later_than_head; [exact SR|].
      destruct (right_secrets !! right_index st); [tauto|exact I].
    + rewrite (drop_S _ _ _ Hr). apply covered_right; [|exact IH].
      apply later_than_head; [exact SL|].
      destruct (left_secrets !! left_index st) as [l|]; [|exact I].
      destruct Hl as [_ Hgt]. rewrite (key_compare_antisym l r), Hgt.
      reflexivity.
  - intros st st' g Hit [IHe IH]. split; [exact IHe|]. intros k.
    specialize (IH k).
    inversion Hit as [| | | |l r ? Hl Hr _ _ Heq E1 E2]; subst.
    rewrite E1, E2 in IH.
    destruct (passed_over_block left_secrets _ l Hl left_keyed)
      as (Lb & HLn & HLb & HLs).
    destruct (passed_over_block right_secrets _ r Hr right_keyed)
      as (Rb & HRn & HRb & HRs).
    rewrite HLb, HRb.
    apply (covered_match k l r); auto.
    + now apply key_compare_eq.
    + now apply passed_over_rest.
    + now apply passed_over_rest.
Qed.

End keyed.

(** *** The properties of [_compare_baselines] *)

(** The generator always comes to an end: it stops when both baselines are
    used up, unless it raised [NoLineNumberError] before. *)
Theorem compare_baselines_ends (old new : list (string * PotentialSecret)) :
  ended (_compare_baselines old new) = StopIteration
  \/ ended (_compare_baselines old new) = Raised NoLineNumberError.
Proof. apply run_finishes, initial_remaining. Qed.

(** C7.  Every change event that [_compare_baselines] yields, for any two
    inputs, has exactly one of its two record slots filled: never both
    [None], never both present (and its file name is that of the record it
    carries). *)
Theorem events_have_exactly_one_side (old new : list (string * PotentialSecret)) :
  Forall one_sided (yielded (_compare_baselines old new)).
Proof. apply run_one_sided, initial_remaining. Qed.

(** C5.  Exchanging the two baselines exchanges the two slots of every
    event and nothing else: the k-th event of [_compare_baselines new old]
    is the k-th event of [_compare_baselines old new] with its sides
    swapped, so removals of one direction and additions of the other
    correspond one to one, for the same record, and no event of either
    direction is outside this correspondence. *)
Theorem compare_baselines_symmetric (old new : list (string * PotentialSecret)) :
  _compare_baselines new old = mirror (_compare_baselines old new)
  /\ (forall k f s,
        yielded (_compare_baselines old new) !! k = Some (f, Some s, None) <->
        yielded (_compare_baselines new old) !! k = Some (f, None, Some s))
  /\ (forall k f s,
        yielded (_compare_baselines old new) !! k = Some (f, None, Some s) <->
        yielded (_compare_baselines new old) !! k = Some (f, Some s, None))
  /\ Forall one_sided (yielded (_compare_baselines old new))
  /\ Forall one_sided (yielded (_compare_baselines new old)).
Proof.
  assert (Hm : _compare_baselines new old = mirror (_compare_baselines old new)).
  { unfold _compare_baselines.
    rewrite (Nat.add_comm (length (map snd new))).
    apply (run_mirror _ (map snd old) (map snd new) initial). }
  split; [exact Hm|].
  assert (Hk : forall k ev,
             yielded (_compare_baselines old new) !! k = Some ev <->
             yielded (_compare_baselines new old) !! k = Some (mirror_event ev)).
  { intros k ev. rewrite Hm. simpl. rewrite list_lookup_fmap. split.
    - intros ->. reflexivity.
    - destruct (yielded (_compare_baselines old new) !! k) as [ev'|];
        simpl; [|discriminate].
      intros H. inversion H as [H'].
      now rewrite <- (mirror_event_involutive ev'), H', mirror_event_involutive. }
  split; [|split; [|split]].
  - intros k f s. apply (Hk k (f, Some s, None)).
  - intros k f s. apply (Hk k (f, None, Some s)).
  - apply run_one_sided, initial_remaining.
  - apply run_one_sided, initial_remaining.
Qed.

(** C6.  A baseline all of whose records have a line number, compared with
    itself, yields no event and the generator stops normally.  The order
    of the records plays no part. *)
Theorem compare_identical_is_empty (baseline : list (string * PotentialSecret)) :
  Forall (fun e => line_number e.2 <> 0%Z) baseline ->
  _compare_baselines baseline baseline =
  {| yielded := []; ended := StopIteration |}.
Proof.
  intros Hlines. apply run_same; [|apply initial_remaining|reflexivity].
  apply Forall_fmap. exact Hlines.
Qed.

Lemma compare_identical_is_empty_witness :
  _compare_baselines [entry "f.py" 10 "h1"; entry "g.py" 3 "h2"]
                     [entry "f.py" 10 "h1"; entry "g.py" 3 "h2"] =
  {| yielded := []; ended := StopIteration |}.
Proof.
  apply (compare_identical_is_empty [entry "f.py" 10 "h1"; entry "g.py" 3 "h2"]).
  repeat constructor; simpl; lia.
Defined.

(** C4.  When both baselines are sorted by
    [(filename, line_number, secret_hash)], the events come out in
    non-decreasing order of the key of the record each one carries,
    whichever side it comes from; every event is at or below every later
    one. *)
Theorem events_are_ordered (old new : list (string * PotentialSecret)) :
  ordered (map snd old) ->
  ordered (map snd new) ->
  StronglySorted event_le (yielded (_compare_baselines old new)).
Proof.
  intros Ho Hn.
  apply (run_ordered (map snd old) (map snd new) Ho Hn), initial_remaining.
Qed.

Lemma events_are_ordered_witness :
  StronglySorted event_le
    (yielded (_compare_baselines
                [entry "a.py" 1 "h1"; entry "a.py" 7 "h3"; entry "c.py" 2 "h2"]
                [entry "a.py" 7 "h0"; entry "b.py" 1 "h1"])).
Proof.
  apply events_are_ordered; simpl;
    repeat (constructor; try (vm_compute; discriminate)).
Defined.

(** Checks [hash_follows_key] on a list that is written out. *)
Ltac neighbours :=
  let i := fresh "i" in
  let Hs := fresh "Hs" in
  let Ht := fresh "Ht" in
  let Hh := fresh "Hh" in
  intros i ? ? Hs Ht Hh;
  repeat (destruct i as [|i]; simpl in Hs, Ht; try discriminate);
  inversion Hs; inversion Ht; subst; vm_compute in Hh; discriminate.

(** Total coverage on the baselines on which lines 140-152 pass over
    records of the matched key only: sorted, with line numbers, and with
    the same key wherever two neighbours have the same hash.  For every
    key, the records that one side alone has are carried by the events of
    that side, each once and in their order, and a key that both sides
    have is in no event. *)
Theorem coverage_when_hashes_follow_keys
    (old new : list (string * PotentialSecret)) :
  ordered (map snd old) -> ordered (map snd new) ->
  hash_follows_key (map snd old) -> hash_follows_key (map snd new) ->
  Forall (fun e => line_number e.2 <> 0%Z) old ->
  Forall (fun e => line_number e.2 <> 0%Z) new ->
  ended (_compare_baselines old new) = StopIteration
  /\ forall k,
       covered k (map snd old) (map snd new)
               (yielded (_compare_baselines old new)).
Proof.
  intros Ho Hn Ko Kn Lo Ln.
  apply (run_covered (map snd old) (map snd new) Ko Kn Ho Hn).
  - apply Forall_fmap. exact Lo.
  - apply Forall_fmap. exact Ln.
  - apply initial_remaining.
Qed.

Lemma coverage_when_hashes_follow_keys_witness :
  let old := [entry "a.py" 1 "h1"; entry "a.py" 7 "h3"; entry "c.py" 2 "h2"] in
  let new := [entry "a.py" 1 "h1"; entry "b.py" 1 "h4"] in
  ended (_compare_baselines old new) = StopIteration
  /\ covered (secret_of "a.py" 7 "h3") (map snd old) (map snd new)
             (yielded (_compare_baselines old new)).
Proof.
  intros old new.
  assert (H : ended (_compare_baselines old new) = StopIteration
              /\ forall k, covered k (map snd old) (map snd new)
                                  (yielded (_compare_baselines old new))).
  { apply coverage_when_hashes_follow_keys.
    - repeat (constructor; try (vm_compute; discriminate)).
    - repeat (constructor; try (vm_compute; discriminate)).
    - neighbours.
    - neighbours.
    - repeat constructor; simpl; lia.
    - repeat constructor; simpl; lia. }
  exact (conj (proj1 H) (proj2 H (secret_of "a.py" 7 "h3"))).
Defined.

(** On baselines with the same key wherever two neighbours have the same
    hash, a record without line number on either side makes the generator
    raise [NoLineNumberError]. *)
Theorem missing_line_number_raises_when_hashes_follow_keys
    (old new : list (string * PotentialSecret)) :
  hash_follows_key (map snd old) -> hash_follows_key (map snd new) ->
  Exists (fun e => lacks_line e.2) (old ++ new)%list ->
  ended (_compare_baselines old new) = Raised NoLineNumberError.
Proof.
  intros Ko Kn Hex.
  apply (run_raises (map snd old) (map snd new) Ko Kn);
    [apply initial_remaining|].
  simpl. rewrite !drop_0.
  apply Exists_app in Hex as [Hex|Hex]; [left|right];
    apply Exists_fmap; exact Hex.
Qed.

Lemma missing_line_number_raises_when_hashes_follow_keys_witness :
  ended (_compare_baselines
           [entry "a.py" 1 "h1"; entry "b.py" 0 "h2"] [entry "a.py" 1 "h1"])
  = Raised NoLineNumberError.
Proof.
  apply missing_line_number_raises_when_hashes_follow_keys.
  - neighbours.
  - neighbours.
  - simpl. apply Exists_cons_tl, Exists_cons_hd. reflexivity.
Defined.

(** C1.  Total coverage does not hold of the code.  Lines 140-152 pass
    over every following record with the hash of the matched pair, whatever
    its file and line, so a record that only one baseline has is dropped
    when it follows a matched record with the same hash: here the secret
    added on line 2 of [a.py] is in the new baseline only, no record of the
    old baseline has its key, and no event carries it. *)
Theorem same_hash_on_next_line_is_dropped :
  let old := [entry "a.py" 1 "h1"] in
  let new := [entry "a.py" 1 "h1"; entry "a.py" 2 "h1"] in
  ordered (map snd old) /\ ordered (map snd new)
  /\ Forall (fun e => line_number e.2 <> 0%Z) (old ++ new)
  /\ Forall (fun e => ~ same_key (secret_of "a.py" 2 "h1") e.2) old
  /\ _compare_baselines old new = {| yielded := []; ended := StopIteration |}.
Proof.
  simpl. repeat split.
  - repeat constructor.
  - repeat (constructor; try (vm_compute; discriminate)).
  - repeat constructor; simpl; lia.
  - repeat constructor. intros (_ & H & _). simpl in H. lia.
Qed.

End CompareFacts.

(** ** The review loop *)

Module SessionFacts.
Import Compare Session.

Section review.

Context {config snippet error : Type}.
Variable get_raw_secret_from_file :
  config -> PotentialSecret -> failure error + string.
Variable get_code_snippet : string -> Z -> snippet.
Variable colorize : string -> AnsiColor -> string.

(** An exception of the generator ends [_display_difference_to_user] before
    anything is shown. *)
Lemma no_line_number_shows_nothing
    (old_data new_data : list (string * PotentialSecret) * config)
    (decisions : list InputOptions) :
  ended (_compare_baselines old_data.1 new_data.1) = Raised NoLineNumberError ->
  _display_difference_to_user get_raw_secret_from_file get_code_snippet colorize
    old_data new_data decisions = ([], Aborted "NoLineNumberError").
Proof.
  destruct old_data as [old oc], new_data as [new nc]. simpl.
  intros ->. reflexivity.
Qed.

(** [compare_baselines] turns it into one error message. *)
Lemma no_line_number_is_reported
    (read_baseline : string -> list (string * PotentialSecret) * config)
    (message old_name new_name : string) (decisions : list InputOptions) :
  old_name <> new_name ->
  ended (_compare_baselines (read_baseline old_name).1 (read_baseline new_name).1)
  = Raised NoLineNumberError ->
  compare_baselines get_raw_secret_from_file get_code_snippet colorize
    read_baseline message old_name new_name decisions
  = ([print_error message], Done).
Proof.
  intros Hne Hraised. unfold compare_baselines.
  apply String.eqb_neq in Hne. rewrite Hne.
  now rewrite (no_line_number_shows_nothing _ _ _ Hraised).
Qed.

Lemma review_loop_unfold (old_config new_config : config)
    (decisions : list InputOptions) (it : BidirectionalIterator) :
  review_loop get_raw_secret_from_file get_code_snippet colorize
              old_config new_config decisions it =
  match collection it !! index it with
  | None => ([], Done)
  | Some ev =>
      match review get_raw_secret_from_file get_code_snippet colorize
                   old_config new_config it ev with
      | Failed shown name => (shown, Aborted name)
      | Prompted shown it =>
          match decisions with
          | [] => (shown, Waiting)
          | decision :: decisions =>
              match apply_decision decision it with
              | None => ((shown ++ [print_message "Quitting..."])%list, Quit)
              | Some it =>
                  let '(rest, e) :=
                    review_loop get_raw_secret_from_file get_code_snippet
                                colorize old_config new_config decisions it in
                  ((shown ++ rest)%list, e)
              end
          end
      end
  end.
Proof. destruct decisions; reflexivity. Qed.

End review.

(** C8.  When [get_raw_secret_from_file] raises
    [SecretNotFoundOnSpecifiedLineError] for the event under the cursor,
    the body shows the error context in place of the snippet context and
    asks for a decision with [can_step_back] as the cursor has it and
    without the secret prompt; the decision then moves the cursor as lines
    224-228 say, and the loop goes on from there: the failure does not end
    the session.  A resolver that succeeds on the same event leads to the
    same prompt and to the same cursor position after every decision. *)
Theorem resolution_failure_is_recoverable {config snippet error : Type}
    (resolve : config -> PotentialSecret -> failure error + string)
    (get_code_snippet : string -> Z -> snippet)
    (colorize : string -> AnsiColor -> string)
    (old_config new_config : config) (it : BidirectionalIterator)
    (f : string) (left right : option PotentialSecret)
    (s : PotentialSecret) (e : error)
    (decision : InputOptions) (decisions : list InputOptions) :
  collection it !! index it = Some (f, left, right) ->
  event_secret (f, left, right) = Some s ->
  resolve (match left with Some _ => old_config | None => new_config end) s
  = inl (SecretNotFoundOnSpecifiedLineError e) ->
  let shown :=
    [clear_screen;
     print_secret_not_found
       {| current_index := index it + 1;
          num_total_secrets := length (collection it);
          secret := s;
          header := None;
          code_snippet := None;
          context_error := Some e |};
     get_user_decision (can_step_back it) false] in
  let go_on := review_loop resolve get_code_snippet colorize
                           old_config new_config decisions in
  review resolve get_code_snippet colorize old_config new_config it
         (f, left, right) = Prompted shown it
  /\ review_loop resolve get_code_snippet colorize old_config new_config
                 (decision :: decisions) it =
     match apply_decision decision it with
     | None => ((shown ++ [print_message "Quitting..."])%list, Quit)
     | Some it' => ((shown ++ (go_on it').1)%list, (go_on it').2)
     end
  /\ forall (resolve' : config -> PotentialSecret -> failure error + string)
            (v : string),
       resolve' (match left with Some _ => old_config | None => new_config end) s
       = inr v ->
       exists context it',
         review resolve' get_code_snippet colorize old_config new_config it
                (f, left, right)
         = Prompted [clear_screen; print_context context;
                     get_user_decision (can_step_back it) false] it'
         /\ forall d, index <$> apply_decision d it' = index <$> apply_decision d it.
Proof.
  intros Hev Hs Hfail shown go_on.
  assert (Hreview :
            review resolve get_code_snippet colorize old_config new_config it
                   (f, left, right) = Prompted shown it).
  { unfold review. destruct left as [l|]; simpl in Hs.
    - inversion Hs; subst. now rewrite Hfail.
    - subst right. now rewrite Hfail. }
  split; [exact Hreview|]. split.
  - rewrite review_loop_unfold. unfold ChangeEvent in *.
    rewrite Hev, Hreview.
    destruct (apply_decision decision it) as [it'|]; [|reflexivity].
    unfold go_on.
    now destruct (review_loop resolve get_code_snippet colorize old_config
                              new_config decisions it').
  - intros resolve' v Hok. unfold review.
    destruct left as [l|]; simpl in Hs.
    + inversion Hs; subst. rewrite Hok. eexists _, _. split; [reflexivity|].
      now intros [].
    + subst right. rewrite Hok. eexists _, _. split; [reflexivity|].
      now intros [].
Qed.

Lemma resolution_failure_is_recoverable_witness :
  let gone : unit -> PotentialSecret -> failure string + string :=
    fun _ _ => inl (SecretNotFoundOnSpecifiedLineError "line changed") in
  let it := {| collection := [("a.py", Some (secret_of "a.py" 1 "h1"), None);
                              ("b.py", None, Some (secret_of "b.py" 4 "h2"))];
               index := 1 |} in
  review_loop gone (fun _ _ => tt) (fun text _ => text) tt tt [BACK; QUIT] it =
  ([clear_screen;
    print_secret_not_found
      {| current_index := 2; num_total_secrets := 2;
         secret := secret_of "b.py" 4 "h2";
         header := None; code_snippet := None;
         context_error := Some "line changed" |};
    get_user_decision true false;
    clear_screen;
    print_secret_not_found
      {| current_index := 1; num_total_secrets := 2;
         secret := secret_of "a.py" 1 "h1";
         header := None; code_snippet := None;
         context_error := Some "line changed" |};
    get_user_decision false false;
    print_message "Quitting..."], Quit).
Proof.
  intros gone it.
  destruct (resolution_failure_is_recoverable gone (fun _ _ => tt)
              (fun text _ => text) tt tt it "b.py" None
              (Some (secret_of "b.py" 4 "h2")) (secret_of "b.py" 4 "h2")
              "line changed" BACK [QUIT] eq_refl eq_refl eq_refl)
    as (_ & Hloop & _).
  rewrite Hloop. reflexivity.
Defined.

(** C3.  A record without a line number does not always stop the
    comparison.  The check of lines 99 and 106 is made on the records under
    the two cursors only, and lines 140-152 move a cursor past every
    following record with the hash of a matched pair without it: the old
    baseline below holds a record without line number, the generator stops
    normally, and [compare_baselines] prints no error message. *)
Theorem skipped_record_without_line_number_is_not_reported :
  let old := [entry "a.py" 1 "h1"; entry "b.py" 0 "h1"] in
  let new := [entry "a.py" 1 "h1"] in
  let read_baseline (name : string) :=
    if String.eqb name "old.json" then (old, tt) else (new, tt) in
  ordered (map snd old) /\ ordered (map snd new)
  /\ Exists (fun e => line_number e.2 = 0%Z) old
  /\ _compare_baselines old new = {| yielded := []; ended := StopIteration |}
  /\ forall decisions,
       compare_baselines (error := unit) (fun _ _ => inr "value")
         (fun _ _ => tt) (fun text _ => text) read_baseline
         "no line numbers" "old.json" "new.json" decisions
       = ([], Done).
Proof.
  simpl. repeat split.
  - repeat (constructor; try (vm_compute; discriminate)).
  - repeat constructor.
  - apply Exists_cons_tl, Exists_cons_hd. reflexivity.
  - intros decisions. now destruct decisions.
Qed.

End SessionFacts.


(** ** The injection mechanism *)

Module InjectFacts.
Import Inject.

Ltac step_M :=
  unfold call_function_with_arguments, make_function_self_aware,
    read_injectable_variables, get_injectable_variables, getattr, deref,
    update, log_introspection, raise, mbind, M_bind, mret, M_ret;
  simpl.

(** A plain function that already carries [injectable_variables] is called
    with the entries of the pool it names, and nothing is written. *)
Lemma aware_function_is_called (st : state) (a : nat) (fo : function)
    (variables : gset string) (kwargs : gmap string value) :
  functions st !! a = Some fo ->
  injectable_variables fo = Some variables ->
  call_function_with_arguments (Function a) kwargs st =
  (inr {| callee := Function a;
          values := filter (fun kv => kv.1 ∈ variables) kwargs |}, st).
Proof.
  intros Ha Hv. step_M.
  repeat (rewrite ?Ha, ?Hv; simpl). reflexivity.
Qed.

(** A plain function without it gets a [path] at line 59 and nothing else,
    so the read of line 35 fails. *)
Lemma plain_function_is_not_called (st : state) (a : nat) (fo : function)
    (kwargs : gmap string value) :
  functions st !! a = Some fo ->
  injectable_variables fo = None ->
  call_function_with_arguments (Function a) kwargs st =
  (inl AttributeError,
   {| functions := <[a := set_path (name fo) fo]> (functions st);
      introspected := introspected st |}).
Proof.
  intros Ha Hv. step_M.
  repeat (rewrite ?Ha, ?Hv, ?lookup_insert_eq; simpl). reflexivity.
Qed.

(** The first call on a bound method whose function is not yet
    self-aware: what is called, and the state it leaves. *)
Lemma fresh_method_call (st : state) (self : object) (a : nat)
    (fo : function) (kwargs : gmap string value) :
  functions st !! a = Some fo ->
  injectable_variables fo = None ->
  klass_attrs (class_of self) !! name fo = Some a ->
  let cached : gset string := list_to_set (declared (func_code fo)) in
  let after :=
    {| functions :=
         <[a := {| name := name fo; func_code := func_code fo;
                   injectable_variables := Some cached;
                   path := Some (klass_str (class_of self) ++ "." ++ name fo) |}]>
           (functions st);
       introspected := (introspected st ++ [a] ++ [a])%list |} in
  call_function_with_arguments (Method self a) kwargs st =
  (match declared (func_code fo) with
   | first :: _ =>
       inr {| callee := Function a;
              values := filter (fun kv => kv.1 ∈ cached)
                               (<[first := Obj self]> kwargs) |}
   | [] => inl IndexError
   end, after).
Proof.
  intros Ha Hv Hk cached after. subst cached after. step_M.
  repeat (rewrite ?Ha, ?Hv, ?Hk, ?lookup_insert_eq, ?insert_insert_eq; simpl).
  rewrite <- (assoc_L (++)%list).
  destruct (declared (func_code fo)) as [|first rest]; simpl.
  - reflexivity.
  - repeat (rewrite ?lookup_insert_eq; simpl). reflexivity.
Qed.

(** A call on a bound method whose function is self-aware: the method
    itself is called, with entries of the pool only, and the state is as
    it was. *)
Lemma aware_method_call (st : state) (self : object) (a : nat)
    (fo : function) (variables : gset string) (kwargs : gmap string value) :
  functions st !! a = Some fo ->
  injectable_variables fo = Some variables ->
  call_function_with_arguments (Method self a) kwargs st =
  (inr {| callee := Method self a;
          values := filter (fun kv => kv.1 ∈ variables) kwargs |}, st).
Proof.
  intros Ha Hv. step_M.
  repeat (rewrite ?Ha, ?Hv; simpl). reflexivity.
Qed.

(** C2.  The scenario of the specification fails on the code.  For a plain
    function, line 59 sets [path] but nothing sets [injectable_variables]
    (line 54 does, on the method branch only), so the read of line 35
    raises [AttributeError]: the decision function declaring only [secret],
    given the pool with [secret] and [header], is not called at all. *)
Theorem plain_decision_function_is_not_called :
  functions store !! 0%nat = Some decide_function
  /\ declared (func_code decide_function) = ["secret"]
  /\ (call_function_with_arguments (Function 0) pool store).1
     = inl AttributeError.
Proof.
  split; [reflexivity|]. split; [reflexivity|].
  now rewrite (plain_function_is_not_called store 0 decide_function pool).
Qed.

(** C9.  A bound method whose function is not yet self-aware, and whose
    class gives that function back under its name, is turned into the
    function itself, and the instance goes in under the first declared
    parameter, whatever its name and whatever the pool holds under it;
    this holds on every store, also on one with no self-aware function at
    all.  A bound method whose function is self-aware already stays the
    bound method it is, and the keyword arguments are entries of the pool
    only.  Each half stands under its own hypotheses. *)
Theorem bound_method_instance_injection (st : state) (self : object)
    (a : nat) (fo : function) (kwargs : gmap string value) :
  (functions st !! a = Some fo ->
   injectable_variables fo = None ->
   klass_attrs (class_of self) !! name fo = Some a ->
   forall (first : string) (rest : list string),
     declared (func_code fo) = first :: rest ->
     exists inv,
       (call_function_with_arguments (Method self a) kwargs st).1 = inr inv
       /\ callee inv = Function a
       /\ values inv !! first = Some (Obj self)
       /\ forall k, k <> first ->
            values inv !! k =
            if decide (k ∈ rest) then kwargs !! k else None)
  /\ (functions st !! a = Some fo ->
      forall variables : gset string,
        injectable_variables fo = Some variables ->
        call_function_with_arguments (Method self a) kwargs st =
        (inr {| callee := Method self a;
                values := filter (fun kv => kv.1 ∈ variables) kwargs |}, st)
        /\ forall k v,
             filter (fun kv : string * value => kv.1 ∈ variables) kwargs !! k
             = Some v ->
             kwargs !! k = Some v).
Proof.
  split.
  - intros Ha Hv Hk first rest Hd.
    rewrite (fresh_method_call st self a fo kwargs Ha Hv Hk), Hd. simpl.
    eexists. split; [reflexivity|]. simpl. split; [reflexivity|]. split.
    + apply map_lookup_filter_Some. split; [apply lookup_insert_eq|].
      apply elem_of_union_l, elem_of_singleton. reflexivity.
    + intros k Hne. destruct (decide (k ∈ rest)) as [Hin|Hout].
      * destruct (kwargs !! k) as [v|] eqn:Hkv.
        -- apply map_lookup_filter_Some. split.
           ++ now rewrite lookup_insert_ne.
           ++ apply elem_of_union_r, elem_of_list_to_set. exact Hin.
        -- apply map_lookup_filter_None. left. now rewrite lookup_insert_ne.
      * apply map_lookup_filter_None. right. intros v _.
        rewrite elem_of_union, elem_of_singleton, elem_of_list_to_set.
        intros [Heq|Hin]; [now apply Hne|now apply Hout].
  - intros Ha variables Hv. split.
    + apply (aware_method_call st self a fo variables kwargs Ha Hv).
    + intros k v H. now apply map_lookup_filter_Some in H.
Qed.

Lemma bound_method_instance_injection_witness :
  (exists inv,
      (call_function_with_arguments (Method hook1 1) pool fresh_store).1
      = inr inv
      /\ callee inv = Function 1
      /\ values inv !! "this" = Some (Obj hook1)
      /\ forall k, k <> "this" ->
           values inv !! k =
           if decide (k ∈ ["secret"]) then pool !! k else None)
  /\ call_function_with_arguments (Method hook2 2) pool store =
     (inr {| callee := Method hook2 2;
             values := filter (fun kv => kv.1 ∈ ({[ "this"; "secret" ]} : gset string))
                              pool |}, store)
  /\ forall k v,
       filter (fun kv : string * value =>
                 kv.1 ∈ ({[ "this"; "secret" ]} : gset string)) pool !! k
       = Some v ->
       pool !! k = Some v.
Proof.
  exact (conj
           (proj1 (bound_method_instance_injection fresh_store hook1 1
                     decide_method pool)
                  eq_refl eq_refl eq_refl "this" ["secret"] eq_refl)
           (proj2 (bound_method_instance_injection store hook2 2
                     (set_injectable_variables {[ "this"; "secret" ]}
                                               decide_method) pool)
                  eq_refl {[ "this"; "secret" ]} eq_refl)).
Defined.

(** C10.  The first call on a bound method whose function has no
    [injectable_variables] yet writes the set of declared names and the
    path into the function object of the class, and changes no other
    function object and nothing else of this one.  After it, a call on the
    method of any instance bound to that function takes the cached set,
    reads no code object again and leaves the state as it is.  The pool is
    a value of the caller; the call works on its own [kwargs]. *)
Theorem first_call_caches_on_class_function (st : state) (self self' : object)
    (a : nat) (fo : function) (kwargs kwargs' : gmap string value) :
  functions st !! a = Some fo ->
  injectable_variables fo = None ->
  klass_attrs (class_of self) !! name fo = Some a ->
  let cached : gset string := list_to_set (declared (func_code fo)) in
  let after := (call_function_with_arguments (Method self a) kwargs st).2 in
  functions after =
    <[a := {| name := name fo; func_code := func_code fo;
              injectable_variables := Some cached;
              path := Some (klass_str (class_of self) ++ "." ++ name fo) |}]>
      (functions st)
  /\ (forall b, b <> a -> functions after !! b = functions st !! b)
  /\ call_function_with_arguments (Method self' a) kwargs' after =
     (inr {| callee := Method self' a;
             values := filter (fun kv => kv.1 ∈ cached) kwargs' |}, after).
Proof.
  intros Ha Hv Hk cached after. subst after.
  rewrite (fresh_method_call st self a fo kwargs Ha Hv Hk). simpl.
  split; [reflexivity|]. split.
  - intros b Hb. now rewrite lookup_insert_ne.
  - eapply aware_method_call; simpl; [apply lookup_insert_eq|reflexivity].
Qed.

Lemma first_call_caches_on_class_function_witness :
  let after := (call_function_with_arguments (Method hook1 1) pool store).2 in
  call_function_with_arguments (Method hook2 1) pool after =
  (inr {| callee := Method hook2 1;
          values := filter (fun kv => kv.1 ∈ (list_to_set ["this"; "secret"] : gset string))
                           pool |}, after).
Proof.
  intros after.
  destruct (first_call_caches_on_class_function store hook1 hook2 1
              decide_method pool pool eq_refl eq_refl eq_refl)
    as (_ & _ & H).
  exact H.
Defined.

End InjectFacts.

(** ** More on the diff engine *)

Module CompareMore.
Import Compare CompareFacts.

(** *** Lines 140-152: the index after a match *)

Lemma prefix_len_le (h : string) (secrets : list PotentialSecret) :
  (prefix_len h secrets <= length secrets)%nat.
Proof.
  induction secrets as [|s l IH]; simpl; [lia|].
  destruct (String.eqb h (secret_hash s)); simpl; lia.
Qed.

Lemma prefix_len_hash (h : string) (secrets : list PotentialSecret) (m : nat) :
  (m < prefix_len h secrets)%nat ->
  exists s, secrets !! m = Some s /\ secret_hash s = h.
Proof.
  revert m. induction secrets as [|s l IH]; intros m Hm; simpl in Hm; [lia|].
  destruct (String.eqb h (secret_hash s)) eqn:E; [|lia].
  apply String.eqb_eq in E. destruct m as [|m]; simpl.
  - exists s. auto.
  - apply IH. lia.
Qed.

(** The loop of lines 142-143 (and 149-150) leaves the index at the first
    record from it on whose hash is not [old_hash], or at the end of the
    list: it never goes back, passes records with that hash only, whatever
    their file and line, and stops on a record with another hash. *)
Theorem skip_same_hash_spec (old_hash : string)
    (secrets : list PotentialSecret) (index : nat) :
  let stop := skip_same_hash old_hash secrets index in
  (index <= stop)%nat
  /\ (stop <= Nat.max index (length secrets))%nat
  /\ (forall m, (index <= m < stop)%nat ->
                exists s, secrets !! m = Some s /\ secret_hash s = old_hash)
  /\ (forall s, secrets !! stop = Some s -> secret_hash s <> old_hash).
Proof.
  intros stop. subst stop. rewrite skip_same_hash_drop.
  pose proof (prefix_len_le old_hash (drop index secrets)) as Hle.
  rewrite length_drop in Hle.
  split; [lia|]. split; [lia|]. split.
  - intros m Hm.
    destruct (prefix_len_hash old_hash (drop index secrets) (m - index))
      as (s & Hs & Hh); [lia|].
    rewrite lookup_drop in Hs.
    replace (index + (m - index))%nat with m in Hs by lia. eauto.
  - intros s Hs.
    pose proof (prefix_len_stops old_hash (drop index secrets)) as Hstop.
    rewrite drop_drop in Hstop.
    now rewrite (drop_S _ _ _ Hs) in Hstop.
Qed.

(** *** What the events are made of *)

Lemma lefts_cons_removal (s : PotentialSecret) (events : list ChangeEvent) :
  lefts (removal s :: events) = s :: lefts events.
Proof. reflexivity. Qed.

Lemma drop_sublist_drop (secrets : list PotentialSecret) (i j : nat) :
  (i <= j)%nat -> drop j secrets `sublist_of` drop i secrets.
Proof.
  intros Hij. replace j with (i + (j - i))%nat by lia.
  rewrite <- drop_drop. apply sublist_drop.
Qed.

Lemma run_subsequences (ls rs : list PotentialSecret) (fuel : nat) (st : locals) :
  (remaining ls rs st <= fuel)%nat ->
  lefts (yielded (run fuel ls rs st)) `sublist_of` drop (left_index st) ls
  /\ rights (yielded (run fuel ls rs st)) `sublist_of` drop (right_index st) rs.
Proof.
  revert fuel st.
  apply (run_rule ls rs
           (fun st g =>
              lefts (yielded g) `sublist_of` drop (left_index st) ls
              /\ rights (yielded g) `sublist_of` drop (right_index st) rs)).
  - intros st _. split; apply sublist_nil_l.
  - intros st _. split; apply sublist_nil_l.
  - intros st ev st' g Hit [IHl IHr].
    inversion Hit as [| |l ? Hl _ _ E1 E2|r ? Hr _ _ E1 E2|]; subst;
      rewrite E1, E2 in *; simpl.
    + split; [|exact IHr].
      rewrite (drop_S _ _ _ Hl). apply sublist_skip. exact IHl.
    + split; [exact IHl|].
      rewrite (drop_S _ _ _ Hr). apply sublist_skip. exact IHr.
  - intros st st' g Hit [IHl IHr].
    inversion Hit as [| | | |l r ? Hl Hr _ _ _ E1 E2]; subst.
    pose proof (skip_same_hash_head _ _ _ Hl).
    pose proof (skip_same_hash_head _ _ _ Hr).
    split.
    + etransitivity; [exact IHl|]. apply drop_sublist_drop. lia.
    + etransitivity; [exact IHr|]. apply drop_sublist_drop. lia.
Qed.

(** The records in the left slots of the events are records of the old
    baseline, in the order of the old baseline, and no record is taken
    twice; likewise the right slots and the new baseline.  The generator
    never makes up, repeats or reorders a record. *)
Theorem events_are_subsequences (old new : list (string * PotentialSecret)) :
  lefts (yielded (_compare_baselines old new)) `sublist_of` map snd old
  /\ rights (yielded (_compare_baselines old new)) `sublist_of` map snd new.
Proof.
  apply (run_subsequences (map snd old) (map snd new) _ initial).
  apply initial_remaining.
Qed.

Lemma run_has_line (ls rs : list PotentialSecret) (fuel : nat) (st : locals) :
  (remaining ls rs st <= fuel)%nat ->
  Forall has_line (yielded (run fuel ls rs st)).
Proof.
  revert fuel st.
  apply (run_rule ls rs (fun _ g => Forall has_line (yielded g)));
    simpl; auto.
  intros st ev st' g Hit IH. constructor; [|exact IH].
  inversion Hit; subst; assumption.
Qed.

(** Every event carries a record that has a line number: lines 99 and 106
    have checked it before a handler yields it, also on the runs that end
    with [NoLineNumberError]. *)
Theorem events_have_line_numbers (old new : list (string * PotentialSecret)) :
  Forall has_line (yielded (_compare_baselines old new)).
Proof. apply run_has_line, initial_remaining. Qed.

(** *** One side empty *)

Lemma run_additions (rs : list PotentialSecret) (fuel : nat) (st : locals) :
  Forall (fun s => line_number s <> 0%Z) rs ->
  (remaining [] rs st <= fuel)%nat ->
  run fuel [] rs st =
  {| yielded := map addition (drop (right_index st) rs);
     ended := StopIteration |}.
Proof.
  intros Hlines. revert fuel st.
  apply (run_rule [] rs
           (fun st g =>
              g = {| yielded := map addition (drop (right_index st) rs);
                     ended := StopIteration |})).
  - intros st Hg. apply guard_false in Hg. destruct Hg as [_ Hr].
    apply lookup_ge_None in Hr. now rewrite drop_ge by lia.
  - intros st Hit. exfalso.
    inversion Hit as [l Hl Hz|r Hr Hz| | |]; subst.
    + now rewrite lookup_nil in Hl.
    + eapply (Forall_lookup_1 _ _ _ _ Hlines); eauto.
  - intros st ev st' g Hit ->.
    inversion Hit as [| |l ? Hl _ _ E1 E2|r ? Hr _ _ E1 E2|]; subst.
    + now rewrite lookup_nil in Hl.
    + rewrite E2, (drop_S _ _ _ Hr). reflexivity.
  - intros st st' g Hit _. exfalso.
    inversion Hit as [| | | |l r ? Hl Hr _ _ _ E1 E2]; subst.
    now rewrite lookup_nil in Hl.
Qed.

(** Against an empty baseline every record of the other one is a change,
    in the order of that baseline: all additions when the old baseline is
    empty, all removals when the new one is (each record having its line
    number). *)
Theorem empty_baseline_gives_every_record
    (baseline : list (string * PotentialSecret)) :
  Forall (fun e => line_number e.2 <> 0%Z) baseline ->
  _compare_baselines [] baseline =
    {| yielded := map (fun e => addition e.2) baseline;
       ended := StopIteration |}
  /\ _compare_baselines baseline [] =
    {| yielded := map (fun e => removal e.2) baseline;
       ended := StopIteration |}.
Proof.
  intros Hlines.
  assert (Hadd : run (length (map snd baseline)) [] (map snd baseline) initial =
                 {| yielded := map (fun e => addition e.2) baseline;
                    ended := StopIteration |}).
  { rewrite run_additions.
    - simpl. rewrite drop_0. now rewrite map_map.
    - apply Forall_fmap. exact Hlines.
    - apply (initial_remaining [] (map snd baseline)). }
  split; [exact Hadd|].
  unfold _compare_baselines. simpl. rewrite Nat.add_0_r.
  change initial with (mirror_locals initial).
  rewrite run_mirror, Hadd. unfold mirror. simpl.
  now rewrite map_map.
Qed.

Lemma empty_baseline_gives_every_record_witness :
  _compare_baselines [] [entry "a.py" 3 "h1"; entry "b.py" 1 "h1"] =
    {| yielded := [addition (secret_of "a.py" 3 "h1");
                   addition (secret_of "b.py" 1 "h1")];
       ended := StopIteration |}.
Proof.
  apply (empty_baseline_gives_every_record
           [entry "a.py" 3 "h1"; entry "b.py" 1 "h1"]).
  repeat constructor; simpl; lia.
Defined.

(** *** A first record without line number *)

Lemma truthy_lacks (s : PotentialSecret) :
  lacks_line s -> truthy (line_number s) = false.
Proof. intros H. now apply truthy_false. Qed.

(** When the first record of either baseline has no line number, the
    generator raises [NoLineNumberError] at once, before any event. *)
Theorem first_record_without_line_number
    (old new : list (string * PotentialSecret)) (e : string * PotentialSecret) :
  head old = Some e \/ head new = Some e ->
  lacks_line e.2 ->
  _compare_baselines old new =
  {| yielded := []; ended := Raised NoLineNumberError |}.
Proof.
  intros Hhead Hline. apply truthy_lacks in Hline.
  unfold _compare_baselines.
  destruct old as [|[f s] old], new as [|[f' s'] new]; simpl in *;
    destruct Hhead as [H|H]; inversion H; subst; simpl in *;
    unfold iteration, fetch; simpl; rewrite ?Hline; try reflexivity.
  destruct (truthy (line_number s)); reflexivity.
Qed.

Lemma first_record_without_line_number_witness :
  _compare_baselines [entry "a.py" 1 "h1"]
                     [entry "a.py" 0 "h0"; entry "a.py" 1 "h1"] =
  {| yielded := []; ended := Raised NoLineNumberError |}.
Proof.
  apply (first_record_without_line_number _ _ (entry "a.py" 0 "h0"));
    [right|]; reflexivity.
Defined.

End CompareMore.

(** ** More on the review loop *)

Module SessionMore.
Import Compare CompareFacts Session SessionFacts.

Section review.

Context {config snippet error : Type}.
Variable get_raw_secret_from_file :
  config -> PotentialSecret -> failure error + string.
Variable get_code_snippet : string -> Z -> snippet.
Variable colorize : string -> AnsiColor -> string.

Abbreviation review :=
  (review get_raw_secret_from_file get_code_snippet colorize).
Abbreviation review_loop :=
  (review_loop get_raw_secret_from_file get_code_snippet colorize).
Abbreviation display :=
  (_display_difference_to_user get_raw_secret_from_file get_code_snippet
                               colorize).

(** What one pass through the body leaves: three actions and a cursor
    that has not moved, or the cleared screen and an exception. *)
Lemma review_shape (old_config new_config : config)
    (it : BidirectionalIterator) (ev : ChangeEvent) :
  match review old_config new_config it ev with
  | Prompted shown it' =>
      exists a c,
        shown = [clear_screen; a; get_user_decision (can_step_back it) false]
        /\ shown_context a = Some c
        /\ current_index c = (index it + 1)%nat
        /\ num_total_secrets c = length (collection it)
        /\ index it' = index it
        /\ length (collection it') = length (collection it)
  | Failed shown _ => shown = [clear_screen]
  end.
Proof.
  unfold Session.review. destruct ev as [[f l] r].
  destruct l as [l|]; [|destruct r as [r|]]; try reflexivity.
  - destruct (get_raw_secret_from_file old_config l) as [[e|name]|v];
      try reflexivity; eexists _, _; simpl;
      rewrite ?length_insert; repeat split; reflexivity.
  - destruct (get_raw_secret_from_file new_config r) as [[e|name]|v];
      try reflexivity; eexists _, _; simpl;
      rewrite ?length_insert; repeat split; reflexivity.
Qed.

(** The induction principle of the [for] loop. *)
Lemma review_loop_rule (old_config new_config : config)
    (P : BidirectionalIterator -> list (action snippet error) * session_end -> Prop) :
  (forall it, collection it !! index it = None -> P it ([], Done)) ->
  (forall it ev shown name,
      collection it !! index it = Some ev ->
      review old_config new_config it ev = Failed shown name ->
      P it (shown, Aborted name)) ->
  (forall it ev shown it',
      collection it !! index it = Some ev ->
      review old_config new_config it ev = Prompted shown it' ->
      P it (shown, Waiting)) ->
  (forall it ev shown it' decision,
      collection it !! index it = Some ev ->
      review old_config new_config it ev = Prompted shown it' ->
      apply_decision decision it' = None ->
      P it ((shown ++ [print_message "Quitting..."])%list, Quit)) ->
  (forall it ev shown it' decision it'' rest e,
      collection it !! index it = Some ev ->
      review old_config new_config it ev = Prompted shown it' ->
      apply_decision decision it' = Some it'' ->
      P it'' (rest, e) ->
      P it ((shown ++ rest)%list, e)) ->
  forall decisions it,
    P it (review_loop old_config new_config decisions it).
Proof.
  intros Hdone Hfail Hwait Hquit Hnext.
  induction decisions as [|d ds IH]; intros it;
    rewrite review_loop_unfold;
    destruct (collection it !! index it) as [ev|] eqn:Hev; auto;
    destruct (Session.review _ _ _ old_config new_config it ev)
      as [shown it'|shown name] eqn:Hrev; eauto.
  destruct (apply_decision d it') as [it''|] eqn:Hd; [|eauto].
  specialize (IH it'').
  destruct (Session.review_loop _ _ _ old_config new_config ds it'')
    as [rest e].
  eapply Hnext; eauto.
Qed.

Lemma apply_decision_collection (decision : InputOptions)
    (it it' : BidirectionalIterator) :
  apply_decision decision it = Some it' -> collection it' = collection it.
Proof. destruct decision; intros H; inversion H; reflexivity. Qed.

Lemma shown_context_no_prompt (a : action snippet error)
    (c : SecretContext snippet error) :
  shown_context a = Some c -> asks_secret_decision a = false.
Proof. destruct a; simpl; congruence. Qed.

Lemma shown_context_not_message (a : action snippet error)
    (c : SecretContext snippet error) (message : string) :
  shown_context a = Some c -> a <> print_message message.
Proof. destruct a; simpl; congruence. Qed.

Lemma review_loop_quit (old_config new_config : config)
    (decisions : list InputOptions) (it : BidirectionalIterator) :
  (review_loop old_config new_config decisions it).2 = Quit <->
  last (review_loop old_config new_config decisions it).1
  = Some (print_message "Quitting...").
Proof.
  revert decisions it.
  apply (review_loop_rule old_config new_config
           (fun _ r => r.2 = Quit <-> last r.1 = Some (print_message "Quitting...")));
    simpl.
  - intros it _. split; discriminate.
  - intros it ev shown name _ Hrev.
    pose proof (review_shape old_config new_config it ev) as Hs.
    rewrite Hrev in Hs. subst shown. split; discriminate.
  - intros it ev shown it' _ Hrev.
    pose proof (review_shape old_config new_config it ev) as Hs.
    rewrite Hrev in Hs. destruct Hs as (a & c & -> & _). split; discriminate.
  - intros it ev shown it' d _ _ _. rewrite last_snoc. split; reflexivity.
  - intros it ev shown it' d it'' rest e _ Hrev _ IH.
    pose proof (review_shape old_config new_config it ev) as Hs.
    rewrite Hrev in Hs. destruct Hs as (a & c & -> & _).
    rewrite last_app. destruct (last rest) as [y|]; [exact IH|].
    simpl. split; [|discriminate].
    intros He. apply IH in He. discriminate.
Qed.

Lemma review_loop_no_secret_prompt (old_config new_config : config)
    (decisions : list InputOptions) (it : BidirectionalIterator) :
  Forall (fun a => asks_secret_decision a = false)
         (review_loop old_config new_config decisions it).1.
Proof.
  revert decisions it.
  assert (Hshown : forall it ev shown it',
             review old_config new_config it ev = Prompted shown it' ->
             Forall (fun a : action snippet error =>
                       asks_secret_decision a = false) shown).
  { intros it ev shown it' Hrev.
    pose proof (review_shape old_config new_config it ev) as Hs.
    rewrite Hrev in Hs. destruct Hs as (a & c & -> & Hc & _).
    repeat constructor. now apply (shown_context_no_prompt a c). }
  apply (review_loop_rule old_config new_config
           (fun _ r => Forall (fun a => asks_secret_decision a = false) r.1));
    simpl.
  - constructor.
  - intros it ev shown name _ Hrev.
    pose proof (review_shape old_config new_config it ev) as Hs.
    rewrite Hrev in Hs. subst shown. repeat constructor.
  - intros it ev shown it' _ Hrev. eapply Hshown; eauto.
  - intros it ev shown it' d _ Hrev _. apply Forall_app. split.
    + eapply Hshown; eauto.
    + repeat constructor.
  - intros it ev shown it' d it'' rest e _ Hrev _ IH. apply Forall_app.
    split; [eapply Hshown; eauto|exact IH].
Qed.

Lemma review_loop_in_bounds (old_config new_config : config)
    (decisions : list InputOptions) (it : BidirectionalIterator) :
  Forall (in_bounds (length (collection it)))
         (review_loop old_config new_config decisions it).1.
Proof.
  revert decisions it.
  assert (Hshown : forall it ev shown it',
             collection it !! index it = Some ev ->
             review old_config new_config it ev = Prompted shown it' ->
             Forall (in_bounds (length (collection it))) shown
             /\ length (collection it') = length (collection it)).
  { intros it ev shown it' Hev Hrev.
    pose proof (review_shape old_config new_config it ev) as Hs.
    rewrite Hrev in Hs.
    destruct Hs as (a & c & -> & Hc & Hi & Hn & _ & Hlen).
    split; [|exact Hlen].
    apply lookup_lt_Some in Hev.
    repeat constructor; unfold in_bounds; simpl; try exact I.
    rewrite Hc. lia. }
  apply (review_loop_rule old_config new_config
           (fun it r => Forall (in_bounds (length (collection it))) r.1));
    simpl.
  - constructor.
  - intros it ev shown name _ Hrev.
    pose proof (review_shape old_config new_config it ev) as Hs.
    rewrite Hrev in Hs. subst shown. repeat constructor.
  - intros it ev shown it' Hev Hrev.
    now destruct (Hshown it ev shown it' Hev Hrev).
  - intros it ev shown it' d Hev Hrev _. apply Forall_app. split.
    + now destruct (Hshown it ev shown it' Hev Hrev).
    + repeat constructor.
  - intros it ev shown it' d it'' rest e Hev Hrev Hd IH.
    destruct (Hshown it ev shown it' Hev Hrev) as [Hs Hlen].
    apply apply_decision_collection in Hd.
    rewrite Hd, Hlen in IH. apply Forall_app. split; assumption.
Qed.

(** Line 56 catches [NoLineNumberError] and nothing else. *)
Lemma compare_baselines_cases
    (read_baseline : string -> list (string * PotentialSecret) * config)
    (message old_name new_name : string) (decisions : list InputOptions) :
  old_name <> new_name ->
  let shown_ended :=
    display (read_baseline old_name) (read_baseline new_name) decisions in
  let result :=
    compare_baselines get_raw_secret_from_file get_code_snippet colorize
                      read_baseline message old_name new_name decisions in
  result = shown_ended
  \/ (shown_ended.2 = Aborted "NoLineNumberError"
      /\ result = ((shown_ended.1 ++ [print_error message])%list, Done)).
Proof.
  intros Hne shown_ended result. subst result. unfold compare_baselines.
  apply String.eqb_neq in Hne. rewrite Hne. fold shown_ended.
  destruct shown_ended as [shown e]. destruct e as [| |name|];
    try (left; reflexivity).
  destruct (String.eqb_spec name "NoLineNumberError") as [->|Hother].
  - right. split; reflexivity.
  - left.
    repeat (match goal with
            | |- context [match ?v with _ => _ end] => destruct v
            end; try reflexivity).
    now destruct Hother.
Qed.

Lemma display_cases
    (old_data new_data : list (string * PotentialSecret) * config)
    (decisions : list InputOptions) :
  (ended (_compare_baselines old_data.1 new_data.1) = StopIteration
   /\ display old_data new_data decisions =
      review_loop old_data.2 new_data.2 decisions
        {| collection := yielded (_compare_baselines old_data.1 new_data.1);
           index := 0 |})
  \/ exists name, display old_data new_data decisions = ([], Aborted name).
Proof.
  destruct old_data as [old oc], new_data as [new nc].
  unfold _display_difference_to_user. simpl.
  destruct (run_finishes (map snd old) (map snd new) _ initial
              (initial_remaining (map snd old) (map snd new))) as [H|H];
    unfold _compare_baselines; rewrite H.
  - left. split; reflexivity.
  - right. eexists. reflexivity.
Qed.

Variable read_baseline : string -> list (string * PotentialSecret) * config.
Variable no_line_number_message : string.

Abbreviation compare_baselines :=
  (compare_baselines get_raw_secret_from_file get_code_snippet colorize
                     read_baseline no_line_number_message).

(** ["Quitting..."] is printed exactly when the reviewer quits, and it is
    the last thing [compare_baselines] prints then. *)
Theorem quitting_is_announced (old_name new_name : string)
    (decisions : list InputOptions) :
  (compare_baselines old_name new_name decisions).2 = Quit <->
  last (compare_baselines old_name new_name decisions).1
  = Some (print_message "Quitting...").
Proof.
  destruct (String.eqb_spec old_name new_name) as [Heq|Hne].
  - unfold Session.compare_baselines.
    apply String.eqb_eq in Heq. rewrite Heq. simpl. split; discriminate.
  - assert (Hdisplay :
              (display (read_baseline old_name) (read_baseline new_name)
                       decisions).2 = Quit <->
              last (display (read_baseline old_name) (read_baseline new_name)
                            decisions).1
              = Some (print_message "Quitting...")).
    { destruct (display_cases (read_baseline old_name)
                  (read_baseline new_name) decisions) as [[_ ->]|[name ->]].
      - apply review_loop_quit.
      - simpl. split; discriminate. }
    destruct (compare_baselines_cases read_baseline no_line_number_message
                old_name new_name decisions Hne) as [->|[_ ->]].
    + exact Hdisplay.
    + simpl. rewrite last_snoc. split; discriminate.
Qed.

(** A comparison never offers the keep-or-discard question: every prompt
    of [compare_baselines] is made with [prompt_secret_decision=False]. *)
Theorem comparison_never_asks_secret_decision (old_name new_name : string)
    (decisions : list InputOptions) :
  Forall (fun a => asks_secret_decision a = false)
         (compare_baselines old_name new_name decisions).1.
Proof.
  destruct (String.eqb_spec old_name new_name) as [Heq|Hne].
  - unfold Session.compare_baselines.
    apply String.eqb_eq in Heq. rewrite Heq. repeat constructor.
  - assert (Hdisplay :
              Forall (fun a : action snippet error =>
                        asks_secret_decision a = false)
                     (display (read_baseline old_name) (read_baseline new_name)
                              decisions).1).
    { destruct (display_cases (read_baseline old_name)
                  (read_baseline new_name) decisions) as [[_ ->]|[name ->]].
      - apply review_loop_no_secret_prompt.
      - constructor. }
    destruct (compare_baselines_cases read_baseline no_line_number_message
                old_name new_name decisions Hne) as [->|[_ ->]].
    + exact Hdisplay.
    + simpl. apply Forall_app. split; [exact Hdisplay|repeat constructor].
Qed.

(** Every context shown counts the events of [_compare_baselines] as its
    total and has a position from 1 up to that total. *)
Theorem contexts_are_in_bounds
    (old_data new_data : list (string * PotentialSecret) * config)
    (decisions : list InputOptions) :
  Forall (in_bounds
            (length (yielded (_compare_baselines old_data.1 new_data.1))))
         (display old_data new_data decisions).1.
Proof.
  destruct (display_cases old_data new_data decisions) as [[_ ->]|[name ->]].
  - apply (review_loop_in_bounds old_data.2 new_data.2 decisions
             {| collection := yielded (_compare_baselines old_data.1 new_data.1);
                index := 0 |}).
  - constructor.
Qed.

(** Two files with the same records, each with its line number: nothing
    is shown and no decision is asked for. *)
Theorem identical_baselines_show_nothing (old_name new_name : string)
    (decisions : list InputOptions) :
  old_name <> new_name ->
  (read_baseline old_name).1 = (read_baseline new_name).1 ->
  Forall (fun e => line_number e.2 <> 0%Z) (read_baseline old_name).1 ->
  compare_baselines old_name new_name decisions = ([], Done).
Proof.
  intros Hne Hsame Hlines.
  unfold Session.compare_baselines.
  apply String.eqb_neq in Hne. rewrite Hne.
  destruct (read_baseline old_name) as [old oc],
           (read_baseline new_name) as [new nc].
  simpl in *. subst new.
  unfold _display_difference_to_user, _compare_baselines.
  rewrite run_same;
    [|apply Forall_fmap; exact Hlines|apply initial_remaining|reflexivity].
  simpl. now destruct decisions.
Qed.

(** *** Going through every difference *)

Lemma store_secret_some (ev : ChangeEvent) (s : PotentialSecret) :
  is_Some (event_secret ev) -> is_Some (event_secret (store_secret ev s)).
Proof.
  destruct ev as [[f [l|]] [r|]]; simpl; intros [x Hx]; eauto; discriminate.
Qed.

Lemma review_prompts (old_config new_config : config)
    (it : BidirectionalIterator) (ev : ChangeEvent) :
  (forall c s name, get_raw_secret_from_file c s <> inl (OtherError name)) ->
  Forall (fun ev => is_Some (event_secret ev)) (collection it) ->
  collection it !! index it = Some ev ->
  exists shown it',
    review old_config new_config it ev = Prompted shown it'
    /\ length shown = 3%nat
    /\ index it' = index it
    /\ length (collection it') = length (collection it)
    /\ Forall (fun ev => is_Some (event_secret ev)) (collection it').
Proof.
  intros Hres Hall Hev.
  assert (Hsome : is_Some (event_secret ev))
    by (eapply (Forall_lookup_1 _ _ _ _ Hall); eauto).
  unfold Session.review. destruct ev as [[f l] r].
  destruct l as [l|]; [|destruct r as [r|]];
    [| |destruct Hsome; discriminate].
  - destruct (get_raw_secret_from_file old_config l) as [[e|name]|v] eqn:E.
    + eexists _, _. repeat split; auto.
    + now apply Hres in E.
    + eexists _, _. split; [reflexivity|]. simpl.
      split; [reflexivity|]. split; [reflexivity|].
      split; [apply length_insert|].
      apply Forall_insert; [exact Hall|]. simpl. eauto.
  - destruct (get_raw_secret_from_file new_config r) as [[e|name]|v] eqn:E.
    + eexists _, _. repeat split; auto.
    + now apply Hres in E.
    + eexists _, _. split; [reflexivity|]. simpl.
      split; [reflexivity|]. split; [reflexivity|].
      split; [apply length_insert|].
      apply Forall_insert; [exact Hall|]. simpl. eauto.
Qed.

Lemma review_loop_advancing (old_config new_config : config)
    (decisions : list InputOptions) (it : BidirectionalIterator) :
  (forall c s name, get_raw_secret_from_file c s <> inl (OtherError name)) ->
  Forall (fun ev => is_Some (event_secret ev)) (collection it) ->
  Forall (fun d => advances d = true) decisions ->
  (length (collection it) - index it <= length decisions)%nat ->
  (review_loop old_config new_config decisions it).2 = Done
  /\ length (review_loop old_config new_config decisions it).1
     = (3 * (length (collection it) - index it))%nat.
Proof.
  intros Hres. revert it.
  induction decisions as [|d ds IH]; intros it Hall Hadv Hlen;
    rewrite review_loop_unfold;
    destruct (collection it !! index it) as [ev|] eqn:Hev.
  - apply lookup_lt_Some in Hev. simpl in Hlen. lia.
  - apply lookup_ge_None in Hev. simpl. split; [reflexivity|lia].
  - destruct (review_prompts old_config new_config it ev Hres Hall Hev)
      as (shown & it' & -> & Hshown & Hi & Hl & Hall').
    inversion Hadv as [|? ? Hd Hds]; subst.
    assert (Hstep : apply_decision d it' = Some (advance it'))
      by (destruct d; simpl in Hd; try discriminate; reflexivity).
    rewrite Hstep.
    destruct (IH (advance it')) as [IHe IHl]; simpl; auto.
    { simpl in Hlen. rewrite Hl, Hi. lia. }
    destruct (Session.review_loop _ _ _ old_config new_config ds (advance it'))
      as [rest e].
    simpl in *. split; [exact IHe|].
    apply lookup_lt_Some in Hev.
    rewrite length_app, Hshown, IHl, Hl, Hi. lia.
  - apply lookup_ge_None in Hev. simpl. split; [reflexivity|lia].
Qed.

Lemma one_sided_some (ev : ChangeEvent) :
  one_sided ev -> is_Some (event_secret ev).
Proof. destruct ev as [[f [l|]] [r|]]; simpl; intros H; eauto; contradiction. Qed.

Abbreviation round :=
  (round get_raw_secret_from_file get_code_snippet colorize).
Abbreviation shown_for :=
  (shown_for get_raw_secret_from_file get_code_snippet colorize).

(** What the body shows is the round of the event at the cursor, and it
    leaves the events after the cursor as they are. *)
Lemma review_round (old_config new_config : config)
    (it : BidirectionalIterator) (ev : ChangeEvent) :
  match review old_config new_config it ev with
  | Prompted shown it' =>
      shown = round old_config new_config (length (collection it))
                    (index it) ev
      /\ drop (S (index it)) (collection it')
         = drop (S (index it)) (collection it)
  | Failed shown _ =>
      shown = round old_config new_config (length (collection it))
                    (index it) ev
  end.
Proof.
  unfold Session.review, Session.round, Session.shown_for.
  destruct ev as [[f l] r].
  destruct l as [l|]; [|destruct r as [r|]]; simpl; try reflexivity.
  - destruct (get_raw_secret_from_file old_config l) as [[e|name]|v];
      simpl; try reflexivity; split; try reflexivity.
    + now rewrite length_insert.
    + apply drop_insert_lt. lia.
  - destruct (get_raw_secret_from_file new_config r) as [[e|name]|v];
      simpl; try reflexivity; split; try reflexivity.
    + now rewrite length_insert.
    + apply drop_insert_lt. lia.
Qed.

Lemma shown_for_some (old_config new_config : config) (total position : nat)
    (ev : ChangeEvent) :
  (forall c s name, get_raw_secret_from_file c s <> inl (OtherError name)) ->
  is_Some (event_secret ev) ->
  is_Some (shown_for old_config new_config total position ev).
Proof.
  intros Hres [s Hs]. unfold Session.shown_for.
  destruct ev as [[f l] r]. rewrite Hs.
  match goal with
  | |- context [get_raw_secret_from_file ?c s] =>
      destruct (get_raw_secret_from_file c s) as [[e|name]|v] eqn:E
  end; eauto.
  now apply Hres in E.
Qed.

Lemma review_loop_advancing_trace (old_config new_config : config)
    (events : list ChangeEvent)
    (decisions : list InputOptions) (it : BidirectionalIterator) :
  (forall c s name, get_raw_secret_from_file c s <> inl (OtherError name)) ->
  Forall (fun ev => is_Some (event_secret ev)) (collection it) ->
  Forall (fun d => advances d = true) decisions ->
  (length (collection it) - index it <= length decisions)%nat ->
  length (collection it) = length events ->
  drop (index it) (collection it) = drop (index it) events ->
  (review_loop old_config new_config decisions it).1
  = concat (imap (fun j => round old_config new_config (length events)
                                 (index it + j))
                 (drop (index it) events)).
Proof.
  intros Hres. revert it.
  induction decisions as [|d ds IH]; intros it Hall Hadv Hlen Hsame Hdrop;
    rewrite review_loop_unfold;
    destruct (collection it !! index it) as [ev|] eqn:Hev.
  - apply lookup_lt_Some in Hev. simpl in Hlen. lia.
  - apply lookup_ge_None in Hev. rewrite drop_ge by lia. reflexivity.
  - destruct (review_prompts old_config new_config it ev Hres Hall Hev)
      as (shown & it' & Hrev & Hshown & Hi & Hl & Hall').
    pose proof (review_round old_config new_config it ev) as Hround.
    rewrite Hrev in Hround. rewrite Hrev.
    destruct Hround as [-> Hrest].
    inversion Hadv as [|? ? Hd Hds]; subst.
    assert (Hstep : apply_decision d it' = Some (advance it'))
      by (destruct d; simpl in Hd; try discriminate; reflexivity).
    rewrite Hstep.
    assert (Hnext : drop (S (index it)) (collection it)
                    = drop (S (index it)) events).
    { replace (S (index it)) with (index it + 1)%nat by lia.
      rewrite <- !drop_drop. now rewrite Hdrop. }
    specialize (IH (advance it')). simpl in IH.
    rewrite Hi, Hl, Hrest in IH.
    specialize (IH Hall' Hds).
    assert (Hlen' : (length (collection it) - S (index it) <= length ds)%nat)
      by (simpl in Hlen; lia).
    specialize (IH Hlen' Hsame Hnext).
    destruct (Session.review_loop _ _ _ old_config new_config ds (advance it'))
      as [rest e].
    simpl in *. rewrite IH.
    assert (Hev' : events !! index it = Some ev).
    { rewrite <- (Nat.add_0_r (index it)), <- lookup_drop, <- Hdrop,
        lookup_drop, Nat.add_0_r. exact Hev. }
    rewrite (drop_S _ _ _ Hev'), imap_cons, concat_cons.
    rewrite Nat.add_0_r, Hsame.
    apply (f_equal (app _)), (f_equal (@concat _)).
    apply imap_ext. intros j x _. simpl. f_equal. lia.
  - apply lookup_ge_None in Hev. rewrite drop_ge by lia. reflexivity.
Qed.

(** When the generator ends normally, the resolver raises nothing but
    [SecretNotFoundOnSpecifiedLineError], and the reviewer gives as many
    decisions as there are events, none of them [BACK] or [QUIT], the
    session is done and what it has shown is, event after event in the
    order of the generator, the round of that event: the screen cleared,
    the context of that event's record at its position (value, header and
    snippet, or the error), and the prompt, with stepping back offered
    from the second event on.  Every event is shown, once, and nothing
    else is. *)
Theorem advancing_reviews_every_event
    (old_data new_data : list (string * PotentialSecret) * config)
    (decisions : list InputOptions) :
  ended (_compare_baselines old_data.1 new_data.1) = StopIteration ->
  (forall c s name, get_raw_secret_from_file c s <> inl (OtherError name)) ->
  Forall (fun d => advances d = true) decisions ->
  (length (yielded (_compare_baselines old_data.1 new_data.1))
   <= length decisions)%nat ->
  (display old_data new_data decisions).2 = Done
  /\ length (display old_data new_data decisions).1
     = (3 * length (yielded (_compare_baselines old_data.1 new_data.1)))%nat
  /\ (display old_data new_data decisions).1
     = concat
         (imap (round old_data.2 new_data.2
                      (length (yielded (_compare_baselines old_data.1
                                                           new_data.1))))
               (yielded (_compare_baselines old_data.1 new_data.1)))
  /\ forall position ev,
       yielded (_compare_baselines old_data.1 new_data.1) !! position
       = Some ev ->
       is_Some (shown_for old_data.2 new_data.2
                  (length (yielded (_compare_baselines old_data.1
                                                       new_data.1)))
                  position ev).
Proof.
  intros Hend Hres Hadv Hlen.
  destruct old_data as [old oc], new_data as [new nc].
  assert (Hsides : Forall (fun ev => is_Some (event_secret ev))
                          (yielded (_compare_baselines old new))).
  { eapply Forall_impl; [apply run_one_sided, initial_remaining|].
    apply one_sided_some. }
  unfold _display_difference_to_user. simpl in *. rewrite Hend.
  pose proof (review_loop_advancing oc nc decisions
                {| collection := yielded (_compare_baselines old new);
                   index := 0 |} Hres) as H.
  simpl in H. rewrite Nat.sub_0_r in H.
  destruct H as [Hdone Hlength]; auto.
  split; [exact Hdone|]. split; [exact Hlength|]. split.
  - rewrite (review_loop_advancing_trace oc nc
               (yielded (_compare_baselines old new)) decisions
               {| collection := yielded (_compare_baselines old new);
                  index := 0 |} Hres); simpl; auto.
    lia.
  - intros position ev Hev. apply shown_for_some; [exact Hres|].
    eapply (Forall_lookup_1 _ _ _ _ Hsides); eauto.
Qed.

End review.

Lemma identical_baselines_show_nothing_witness :
  compare_baselines (snippet := unit) (error := unit)
    (fun _ _ => inr "value") (fun _ _ => tt) (fun text _ => text)
    (fun name : string =>
       ([entry "a.py" 1 "h1"; entry "a.py" 2 "h1"],
        if String.eqb name "old.json" then "old settings" else "new settings"))
    "no line numbers" "old.json" "new.json" [SKIP; QUIT]
  = ([], Done).
Proof.
  apply identical_baselines_show_nothing.
  - discriminate.
  - reflexivity.
  - repeat constructor; simpl; lia.
Defined.

Lemma advancing_reviews_every_event_witness :
  let result :=
    _display_difference_to_user (config := unit) (snippet := unit)
      (fun _ s => if String.eqb (filename s) "a.py"
                  then inl (SecretNotFoundOnSpecifiedLineError "gone")
                  else inr "value")
      (fun _ _ => tt) (fun text _ => text)
      ([entry "a.py" 1 "h1"; entry "c.py" 5 "h3"], tt)
      ([entry "b.py" 1 "h2"; entry "c.py" 5 "h3"], tt)
      [SKIP; YES; NO] in
  result.2 = Done
  /\ result.1 =
     [clear_screen;
      print_secret_not_found
        {| current_index := 1; num_total_secrets := 2;
           secret := secret_of "a.py" 1 "h1";
           header := None; code_snippet := None;
           context_error := Some "gone" |};
      get_user_decision false false;
      clear_screen;
      print_context
        {| current_index := 2; num_total_secrets := 2;
           secret := with_value (secret_of "b.py" 1 "h2") "value";
           header := Some "Status:      >> ADDED <<";
           code_snippet := Some tt;
           context_error := None |};
      get_user_decision true false].
Proof.
  pose proof (advancing_reviews_every_event (config := unit) (snippet := unit)
                (fun _ s => if String.eqb (filename s) "a.py"
                            then inl (SecretNotFoundOnSpecifiedLineError "gone")
                            else inr "value")
                (fun _ _ => tt) (fun text _ => text)
                ([entry "a.py" 1 "h1"; entry "c.py" 5 "h3"], tt)
                ([entry "b.py" 1 "h2"; entry "c.py" 5 "h3"], tt)
                [SKIP; YES; NO]) as H.
  destruct H as (Hdone & _ & Htrace & _).
  - reflexivity.
  - intros c s name. destruct (String.eqb (filename s) "a.py"); discriminate.
  - repeat constructor.
  - simpl. lia.
  - split; [exact Hdone|]. rewrite Htrace. reflexivity.
Defined.

Lemma no_line_number_is_reported_witness :
  compare_baselines (snippet := unit) (error := unit)
    (fun _ _ => inr "value") (fun _ _ => tt) (fun text _ => text)
    (fun name : string =>
       if String.eqb name "old.json"
       then ([entry "a.py" 1 "h1"; entry "a.py" 2 "h2"], tt)
       else ([entry "a.py" 2 "h2"; entry "b.py" 0 "h3"], tt))
    "Line numbers are needed" "old.json" "new.json" [SKIP; SKIP]
  = ([print_error "Line numbers are needed"], Done).
Proof.
  apply no_line_number_is_reported.
  - discriminate.
  - reflexivity.
Defined.

End SessionMore.

(** ** More on the injection mechanism *)

Module InjectMore.
Import Inject InjectFacts.

(** *** Writes go to the two attributes only *)

Lemma keeps_ret {A : Type} (a : A) : keeps_functions (mret a).
Proof. intros st. reflexivity. Qed.

Lemma keeps_raise {A : Type} (e : exception) : keeps_functions (@raise A e).
Proof. intros st. reflexivity. Qed.

Lemma keeps_bind {A B : Type} (m : M A) (k : A -> M B) :
  keeps_functions m -> (forall a, keeps_functions (k a)) ->
  keeps_functions (m ≫= k).
Proof.
  intros Hm Hk st. unfold mbind, M_bind.
  specialize (Hm st). destruct (m st) as [[e|a] st']; simpl in *.
  - exact Hm.
  - rewrite (Hk a st'). exact Hm.
Qed.

Lemma keeps_deref (f : nat) : keeps_functions (deref f).
Proof. intros st. unfold deref. now destruct (functions st !! f). Qed.

Lemma keeps_log (f : nat) : keeps_functions (log_introspection f).
Proof. intros st. reflexivity. Qed.

Lemma keeps_getattr (k : klass) (attr : string) : keeps_functions (getattr k attr).
Proof.
  unfold getattr. destruct (klass_attrs k !! attr);
    [apply keeps_ret|apply keeps_raise].
Qed.

Lemma keeps_update (f : nat) (change : function -> function) :
  (forall fo, identity (change fo) = identity fo) ->
  keeps_functions (update f change).
Proof.
  intros Hch st. unfold update.
  destruct (functions st !! f) as [fo|] eqn:Hf; [|reflexivity].
  simpl. rewrite fmap_insert, Hch. apply insert_id.
  now rewrite lookup_fmap, Hf.
Qed.

Lemma keeps_read (func : callable) :
  keeps_functions (read_injectable_variables func).
Proof.
  destruct func; simpl; try apply keeps_ret;
    (apply keeps_bind; [apply keeps_deref|intros; apply keeps_ret]).
Qed.

Lemma keeps_introspect (func : callable) :
  keeps_functions (get_injectable_variables func).
Proof.
  destruct func; simpl; try apply keeps_raise;
    (apply keeps_bind; [apply keeps_deref|intros fo];
     apply keeps_bind; [apply keeps_log|intros; apply keeps_ret]).
Qed.

Lemma keeps_make_function_self_aware (func : callable) :
  keeps_functions (make_function_self_aware func).
Proof.
  unfold make_function_self_aware.
  apply keeps_bind; [apply keeps_read|intros [variables|]];
    [apply keeps_ret|].
  destruct func as [f|self f|o variables]; [| |apply keeps_raise].
  - apply keeps_bind; [apply keeps_deref|intros fo].
    apply keeps_bind; [now apply keeps_update|intros; apply keeps_ret].
  - apply keeps_bind; [apply keeps_deref|intros fo].
    apply keeps_bind; [apply keeps_getattr|intros function].
    apply keeps_bind; [apply keeps_introspect|intros variables].
    apply keeps_bind; [now apply keeps_update|intros _].
    apply keeps_bind; [now apply keeps_update|intros; apply keeps_ret].
Qed.

(** Whatever the callable, the pool and the store, and whether the call
    is made or an exception is raised on the way, the store of function
    objects afterwards has the same function objects with the same names
    and code: [call_function_with_arguments] writes nothing but the two
    attributes [injectable_variables] and [path]. *)
Theorem only_attributes_are_written (func : callable)
    (kwargs : gmap string value) (st : state) :
  identity <$> functions (call_function_with_arguments func kwargs st).2
  = identity <$> functions st.
Proof.
  revert st. change (keeps_functions (call_function_with_arguments func kwargs)).
  unfold call_function_with_arguments.
  apply keeps_bind.
  { destruct (is_self_aware func);
      [apply keeps_ret|apply keeps_make_function_self_aware]. }
  intros function. apply keeps_bind.
  { destruct func as [f|self f|o variables]; try apply keeps_ret.
    destruct (negb (ismethod function)); [|apply keeps_ret].
    apply keeps_bind; [apply keeps_introspect|intros variables].
    destruct (variables !! 0%nat); [apply keeps_ret|apply keeps_raise]. }
  intros kwargs'. apply keeps_bind; [apply keeps_read|].
  intros [injectable|]; [apply keeps_ret|apply keeps_raise].
Qed.

(** *** What is passed *)

(** Every keyword argument of the call is an entry of the pool, or, for a
    bound method, the method's own instance under the first parameter
    name of the method's code; and what is called is the callable given
    or, for a bound method, the function that the class of its instance
    holds under the [__name__] of the method's function.  The mechanism
    passes nothing of its own making and calls nothing else. *)
Theorem arguments_come_from_the_pool (func : callable)
    (kwargs : gmap string value) (st st' : state) (inv : invocation) :
  call_function_with_arguments func kwargs st = (inr inv, st') ->
  (callee inv = func
   \/ exists self f fo function,
        func = Method self f
        /\ functions st !! f = Some fo
        /\ klass_attrs (class_of self) !! name fo = Some function
        /\ callee inv = Function function)
  /\ forall k v,
       values inv !! k = Some v ->
       kwargs !! k = Some v
       \/ exists self f fo,
            func = Method self f
            /\ functions st !! f = Some fo
            /\ declared (func_code fo) !! 0%nat = Some k
            /\ v = Obj self.
Proof.
  intros Hcall.
  destruct func as [f|self f|o variables]; revert Hcall; step_M;
    repeat (case_match; simplify_eq/=); intros Hcall; simplify_eq/=;
    (split; [eauto 10|]);
    intros k v Hv; apply map_lookup_filter_Some in Hv as [Hv _];
    try (left; exact Hv).
  apply lookup_insert_Some in Hv as [[-> <-]|[_ Hv]]; [|left; exact Hv].
  right.
  match goal with
  | Hf : functions ?s !! f = Some ?fo,
    Hc : functions ?s !! ?n = Some ?fc,
    Hi : <[?n:=?x]> (functions ?s) !! ?n = Some ?f1,
    Hu : <[?n:=_]> (<[?n:=?x]> (functions ?s)) !! f = Some ?fu,
    Hd : declared (func_code ?fu) !! 0%nat = Some k |- _ =>
      exists self, f, fo;
      split; [reflexivity|]; split; [exact Hf|]; split; [|reflexivity];
      rewrite lookup_insert_eq in Hi; inversion Hi; subst f1;
      destruct (decide (n = f)) as [Heq|Hne];
      [subst n; rewrite lookup_insert_eq in Hu; inversion Hu; subst fu;
       simpl in Hd; rewrite Hf in Hc; inversion Hc; subst; exact Hd
      |rewrite !lookup_insert_ne in Hu by exact Hne; rewrite Hf in Hu;
       inversion Hu; subst; exact Hd]
  end.
Qed.

Lemma arguments_come_from_the_pool_witness :
  (exists self f fo function,
      Method hook1 1 = Method self f
      /\ functions fresh_store !! f = Some fo
      /\ klass_attrs (class_of self) !! name fo = Some function
      /\ Function 1 = Function function)
  /\ (exists self f fo,
         Method hook1 1 = Method self f
         /\ functions fresh_store !! f = Some fo
         /\ declared (func_code fo) !! 0%nat = Some "this"
         /\ Obj hook1 = Obj self)
  /\ pool !! "secret" = Some (Str "X").
Proof.
  pose proof (arguments_come_from_the_pool (Method hook1 1) pool fresh_store
                _ _ (fresh_method_call fresh_store hook1 1 decide_method pool
                       eq_refl eq_refl eq_refl)) as H.
  destruct H as [[Hcallee|Hcallee] Hvalues]; [discriminate Hcallee|].
  split; [exact Hcallee|]. split.
  - destruct (Hvalues "this" (Obj hook1) eq_refl) as [Hpool|Hself];
      [vm_compute in Hpool; discriminate Hpool|exact Hself].
  - destruct (Hvalues "secret" (Str "X") eq_refl)
      as [Hpool|(self & f & fo & _ & _ & _ & Hself)];
      [exact Hpool|discriminate Hself].
Defined.

(** *** Bound methods and the class attribute of their name *)

(** A bound method whose function is not self-aware and whose class has no
    attribute under the function's [__name__] (a decorated method, say):
    line 53 raises [AttributeError], nothing is introspected and nothing is
    written. *)
Theorem method_name_missing_on_class (st : state) (self : object) (a : nat)
    (fo : function) (kwargs : gmap string value) :
  functions st !! a = Some fo ->
  injectable_variables fo = None ->
  klass_attrs (class_of self) !! name fo = None ->
  call_function_with_arguments (Method self a) kwargs st
  = (inl AttributeError, st).
Proof.
  intros Ha Hv Hk. step_M.
  repeat (rewrite ?Ha, ?Hv, ?Hk; simpl). reflexivity.
Qed.

Lemma method_name_missing_on_class_witness :
  call_function_with_arguments (Method hook1 6) pool wide_store
  = (inl AttributeError, wide_store).
Proof.
  exact (method_name_missing_on_class wide_store hook1 6 wrapper pool
           eq_refl eq_refl eq_refl).
Defined.

(** The general form of the first call on a bound method: the attributes
    go to the function that line 53 finds under the name, and that
    function is what gets called. *)
Lemma first_method_call (st : state) (self : object) (a c : nat)
    (fo fc : function) (kwargs : gmap string value) :
  functions st !! a = Some fo ->
  injectable_variables fo = None ->
  klass_attrs (class_of self) !! name fo = Some c ->
  functions st !! c = Some fc ->
  let cached : gset string := list_to_set (declared (func_code fo)) in
  let after :=
    {| functions :=
         <[c := {| name := name fc; func_code := func_code fc;
                   injectable_variables := Some cached;
                   path := Some (klass_str (class_of self) ++ "." ++ name fo) |}]>
           (functions st);
       introspected := (introspected st ++ [a] ++ [a])%list |} in
  call_function_with_arguments (Method self a) kwargs st =
  (match declared (func_code fo) with
   | first :: _ =>
       inr {| callee := Function c;
              values := filter (fun kv => kv.1 ∈ cached)
                               (<[first := Obj self]> kwargs) |}
   | [] => inl IndexError
   end, after).
Proof.
  intros Ha Hv Hk Hc cached after. subst cached after.
  destruct (decide (c = a)) as [->|Hne].
  - rewrite Ha in Hc. inversion Hc; subst fc.
    apply (fresh_method_call st self a fo kwargs Ha Hv Hk).
  - step_M.
    repeat (rewrite ?Ha, ?Hv, ?Hk, ?Hc, ?lookup_insert_eq, ?insert_insert_eq,
              ?(lookup_insert_ne _ c a) by exact Hne;
            simpl).
    rewrite <- (assoc_L (++)%list).
    destruct (declared (func_code fo)) as [|first rest]; simpl.
    + reflexivity.
    + repeat (rewrite ?lookup_insert_eq; simpl). reflexivity.
Qed.

(** When the class has another function under that name (the method was
    overridden and the bound method is the one of the base class), the
    function called is the one of the class, filtered by the parameter
    names of the method's own code, which are also what is cached on it;
    the method's own function stays as it was. *)
Theorem overridden_method_is_replaced (st : state) (self : object)
    (a c : nat) (fo fc : function) (first : string) (rest : list string)
    (kwargs : gmap string value) :
  functions st !! a = Some fo ->
  injectable_variables fo = None ->
  klass_attrs (class_of self) !! name fo = Some c ->
  functions st !! c = Some fc ->
  c <> a ->
  declared (func_code fo) = first :: rest ->
  let result := call_function_with_arguments (Method self a) kwargs st in
  result.1 =
    inr {| callee := Function c;
           values := filter (fun kv => kv.1 ∈ (list_to_set (first :: rest) : gset string))
                            (<[first := Obj self]> kwargs) |}
  /\ functions result.2 !! a = Some fo
  /\ functions result.2 !! c =
     Some {| name := name fc; func_code := func_code fc;
             injectable_variables := Some (list_to_set (first :: rest));
             path := Some (klass_str (class_of self) ++ "." ++ name fo) |}.
Proof.
  intros Ha Hv Hk Hc Hne Hd result. subst result.
  rewrite (first_method_call st self a c fo fc kwargs Ha Hv Hk Hc), Hd.
  simpl. split; [reflexivity|]. split.
  - rewrite lookup_insert_ne by exact Hne. exact Ha.
  - apply lookup_insert_eq.
Qed.

Lemma overridden_method_is_replaced_witness :
  let result :=
    call_function_with_arguments (Method derived1 3) pool wide_store in
  result.1 =
    inr {| callee := Function 4;
           values := filter (fun kv => kv.1 ∈ (list_to_set ["self"; "secret"] : gset string))
                            (<["self" := Obj derived1]> pool) |}
  /\ functions result.2 !! 3%nat = Some base_decide
  /\ functions result.2 !! 4%nat =
     Some {| name := "decide"; func_code := func_code derived_decide;
             injectable_variables := Some (list_to_set ["self"; "secret"]);
             path := Some "<class 'Derived'>.decide" |}.
Proof.
  exact (overridden_method_is_replaced wide_store derived1 3 4 base_decide
           derived_decide "self" ["secret"] pool
           eq_refl eq_refl eq_refl eq_refl ltac:(discriminate) eq_refl).
Defined.

(** A bound method that declares no named parameter: the first call
    raises [IndexError] at line 30, after line 54 has made the function
    self-aware with an empty set; so the second call goes through, calling
    the method with no keyword argument at all. *)
Theorem method_without_parameters (st : state) (self : object) (a : nat)
    (fo : function) (kwargs kwargs' : gmap string value) :
  functions st !! a = Some fo ->
  injectable_variables fo = None ->
  klass_attrs (class_of self) !! name fo = Some a ->
  declared (func_code fo) = [] ->
  let first_call := call_function_with_arguments (Method self a) kwargs st in
  first_call.1 = inl IndexError
  /\ call_function_with_arguments (Method self a) kwargs' first_call.2
     = (inr {| callee := Method self a; values := ∅ |}, first_call.2).
Proof.
  intros Ha Hv Hk Hd first_call. subst first_call.
  rewrite (first_method_call st self a a fo fo kwargs Ha Hv Hk Ha), Hd.
  simpl. split; [reflexivity|].
  erewrite aware_method_call;
    [|simpl; apply lookup_insert_eq|reflexivity].
  do 2 f_equal. f_equal.
  apply map_eq. intros k. rewrite lookup_empty.
  apply map_lookup_filter_None. right. intros v _. simpl. set_solver.
Qed.

Lemma method_without_parameters_witness :
  let first_call :=
    call_function_with_arguments (Method derived1 5) pool wide_store in
  first_call.1 = inl IndexError
  /\ call_function_with_arguments (Method derived1 5) pool first_call.2
     = (inr {| callee := Method derived1 5; values := ∅ |}, first_call.2).
Proof.
  exact (method_without_parameters wide_store derived1 5 run_any pool pool
           eq_refl eq_refl eq_refl eq_refl).
Defined.

(** *** [make_function_self_aware] on its own result *)

(** Whatever [make_function_self_aware] returns, a second application to
    it returns it again and leaves the store as the first one did. *)
Theorem make_function_self_aware_settles (func function : callable)
    (st st' : state) :
  make_function_self_aware func st = (inr function, st') ->
  make_function_self_aware function st' = (inr function, st').
Proof.
  destruct func as [a|self a|o variables]; step_M.
  - destruct (functions st !! a) as [fo|] eqn:Ha; simpl; [|discriminate].
    destruct (injectable_variables fo) eqn:Hv; simpl;
      repeat (rewrite ?Ha, ?Hv; simpl);
      intros H; inversion H; subst; simpl;
      repeat (rewrite ?Ha, ?Hv, ?lookup_insert_eq, ?insert_insert_eq; simpl);
      reflexivity.
  - destruct (functions st !! a) as [fo|] eqn:Ha; simpl; [|discriminate].
    destruct (injectable_variables fo) eqn:Hv; simpl.
    + intros H; inversion H; subst; simpl.
      repeat (rewrite ?Ha, ?Hv; simpl). reflexivity.
    + rewrite Ha. simpl.
      destruct (klass_attrs (class_of self) !! name fo) as [c|]; simpl;
        [|discriminate].
      rewrite Ha. simpl.
      destruct (functions st !! c) as [fc|] eqn:Hc; simpl; [|discriminate].
      rewrite lookup_insert_eq. simpl.
      intros H; inversion H; subst; simpl.
      repeat (rewrite ?lookup_insert_eq; simpl). reflexivity.
  - destruct variables; simpl; [|discriminate].
    intros H; inversion H; subst. reflexivity.
Qed.

Lemma make_function_self_aware_settles_witness :
  let first := make_function_self_aware (Method hook1 1) store in
  make_function_self_aware (Function 1) first.2 = (inr (Function 1), first.2).
Proof.
  exact (make_function_self_aware_settles (Method hook1 1) (Function 1) store
           _ eq_refl).
Defined.

(** *** A plain function that is self-aware *)

Lemma aware_function_is_called_witness :
  call_function_with_arguments (Function 7) pool wide_store =
  (inr {| callee := Function 7;
          values := filter (fun kv => kv.1 ∈ ({[ "secret" ]} : gset string))
                           pool |}, wide_store).
Proof.
  exact (aware_function_is_called wide_store 7
           (set_injectable_variables {[ "secret" ]} decide_function)
           {[ "secret" ]} pool eq_refl eq_refl).
Defined.

End InjectMore.
